(** * pi_integral: midpoint-rule estimate of pi with a fork-join reduction

    Shallow embedding of [src/PI/pi_integral.cpp] (the documented copy of the
    same program is the second source file).  The program has a single
    function, [main]; the embedding follows it block by block:

    - command-line validation (lines 13-30),
    - clamping of the thread count (line 32),
    - the partition of [0, n) into one index range per thread (lines 44-50),
    - the body of each thread (lines 52-59),
    - the join and the final combination (lines 62-66).

    Integers are [Z] with the wrap-around of [uint64_t] and [unsigned int]
    written out; [double] is the kernel's binary64 type [float]. *)

From Stdlib Require Import ZArith Lia Floats QArith Qcanon Ascii String.
From stdpp Require Import base tactics option list numbers strings.

Local Open Scope Z_scope.

(** ** Machine integers *)

Module UInt.

Definition modulus64 : Z := 2 ^ 64.
Definition modulus32 : Z := 2 ^ 32.

(** Result of an arithmetic operation carried out in [uint64_t]. *)
Definition wrap64 (z : Z) : Z := z mod modulus64.

(** Result of an arithmetic operation or conversion in [unsigned int]. *)
Definition wrap32 (z : Z) : Z := z mod modulus32.

Definition in_u64 (z : Z) : Prop := 0 <= z < modulus64.
Definition in_u32 (z : Z) : Prop := 0 <= z < modulus32.

End UInt.
Export UInt.

(** ** Arithmetic of [double]

    The operations [main] applies to values of type [double].  The program
    runs on the [Binary64] instance below; the exact instance over the
    rationals is the reference the floating-point results are compared to. *)

Class DoubleOps (F : Type) := {
  d_zero : F;                 (* 0.0 *)
  d_half : F;                 (* 0.5 *)
  d_one : F;                  (* 1.0 *)
  d_four : F;                 (* 4.0 *)
  d_add : F -> F -> F;
  d_mul : F -> F -> F;
  d_div : F -> F -> F;
  d_of_u64 : Z -> F           (* static_cast<double>(uint64_t) *)
}.

(** [static_cast<double>] of a [uint64_t]: the nearest [double], ties to
    even.  This is the integer conversion of IEEE 754, written as the
    Standard Library specifies it for the primitive conversion of 63-bit
    integers ([FloatAxioms.of_uint63_spec]), here for all 64 bits. *)
Definition u64_to_double (z : Z) : float :=
  SF2Prim (binary_normalize prec emax z 0 false).

#[export] Instance Binary64 : DoubleOps float := {
  d_zero := 0%float;
  d_half := 0.5%float;
  d_one := 1%float;
  d_four := 4%float;
  d_add := PrimFloat.add;
  d_mul := PrimFloat.mul;
  d_div := PrimFloat.div;
  d_of_u64 := u64_to_double
}.

#[export] Instance Exact : DoubleOps Qc := {
  d_zero := 0%Qc;
  d_half := Q2Qc (1 # 2);
  d_one := 1%Qc;
  d_four := Q2Qc (4 # 1);
  d_add := Qcplus;
  d_mul := Qcmult;
  d_div := Qcdiv;
  d_of_u64 := fun z => Q2Qc (inject_Z z)
}.

(** ** The computation of [main] *)

Section Program.

Context {F : Type} `{DoubleOps F}.

(** The integrand at the midpoint of rectangle [i] (lines 55-56):
    [x = (static_cast<double>(i) + 0.5) * dx] and [4.0 / (1.0 + x * x)]. *)
Definition midpoint (i : Z) (dx : F) : F :=
  d_mul (d_add (d_of_u64 i) d_half) dx.

Definition denominator (i : Z) (dx : F) : F :=
  let x := midpoint i dx in d_add d_one (d_mul x x).

Definition integrand (i : Z) (dx : F) : F :=
  d_div d_four (denominator i dx).

(** The inner loop of a thread (lines 54-57):
    [for (uint64_t i = start_idx; i < end_idx; ++i) local_sum += ...]. *)
Fixpoint integrate_loop (fuel : nat) (i end_idx : Z) (dx local_sum : F)
  : option F :=
  if i <? end_idx then
    match fuel with
    | O => None
    | S fuel' =>
        integrate_loop fuel' (wrap64 (i + 1)) end_idx dx
          (d_add local_sum (integrand i dx))
    end
  else Some local_sum.

(** A thread object: the values its lambda captures by copy (line 52).  The
    vector [partial_sums] is captured by reference and is threaded through
    [thread_body] as the shared store. *)
Record thread := Thread {
  th_t : Z;
  th_start_idx : Z;
  th_end_idx : Z;
  th_dx : F
}.

Definition local_sum_of (th : thread) : option F :=
  integrate_loop (Z.to_nat (th_end_idx th - th_start_idx th))
    (th_start_idx th) (th_end_idx th) (th_dx th) d_zero.

(** The lambda (lines 52-59): compute [local_sum], then the single shared
    write [partial_sums[t] = local_sum].  [operator[]] has no bounds check in
    the source; the list update leaves the store unchanged out of range. *)
Definition thread_body (partial_sums : list F) (th : thread)
  : option (list F) :=
  local_sum ← local_sum_of th;
  Some (<[Z.to_nat (th_t th) := local_sum]> partial_sums).

(** The loop that creates the threads (lines 47-60). *)
Fixpoint spawn_loop (fuel : nat) (t num_threads base_chunk remainder : Z)
    (dx : F) (threads : list thread) : option (list thread) :=
  if t <? num_threads then
    match fuel with
    | O => None
    | S fuel' =>
        let start_idx := wrap64 (wrap64 (t * base_chunk) + Z.min t remainder) in
        let chunk_size := wrap64 (base_chunk + (if t <? remainder then 1 else 0)) in
        let end_idx := wrap64 (start_idx + chunk_size) in
        spawn_loop fuel' (wrap32 (t + 1)) num_threads base_chunk remainder dx
          (threads ++ [Thread t start_idx end_idx dx])
    end
  else Some threads.

(** Running the threads to completion in the order [schedule] finishes them;
    line 62 joins them all before the store is read. *)
Fixpoint run_threads (schedule : list thread) (partial_sums : list F)
  : option (list F) :=
  match schedule with
  | [] => Some partial_sums
  | th :: rest => ps ← thread_body partial_sums th; run_threads rest ps
  end.

(** Lines 64-65: [for (auto v : partial_sums) total_sum += v]. *)
Definition total_sum_of (partial_sums : list F) : F :=
  fold_left d_add partial_sums d_zero.

(** What the computation phase leaves behind. *)
Record computation := Computation {
  c_dx : F;
  c_threads : list thread;
  c_partial_sums : list F;
  c_pi_approx : F
}.

(** Lines 44-60: the work split and the threads created from it. *)
Definition partition (n num_threads : Z) (dx : F) : option (list thread) :=
  let base_chunk := n / num_threads in
  let remainder := n mod num_threads in
  spawn_loop (Z.to_nat num_threads) 0 num_threads base_chunk remainder dx [].

(** Lines 37-66 for validated [n] and [num_threads], the threads finishing in
    the order chosen by [sched] (a reordering of the list of threads). *)
Definition compute_with (sched : list thread -> list thread)
    (n num_threads : Z) : option computation :=
  let dx := d_div d_one (d_of_u64 n) in
  let partial_sums0 := replicate (Z.to_nat num_threads) d_zero in
  threads ← partition n num_threads dx;
  partial_sums ← run_threads (sched threads) partial_sums0;
  let total_sum := total_sum_of partial_sums in
  let pi_approx := d_mul total_sum dx in
  Some (Computation dx threads partial_sums pi_approx).

Definition compute : Z -> Z -> option computation := compute_with id.

End Program.

Arguments thread : clear implicits.
Arguments computation : clear implicits.


(** ** Formatted input

    [std::istringstream ss(arg); ss >> v] for an unsigned [v], as the C++
    standard library specifies it ([istream.formatted.arithmetic],
    [facet.num.get.virtuals]) with the stream's initial flags ([skipws],
    [dec]) and the classic locale.  The library is not part of the
    repository; this is the model of the one call [main] makes to it. *)

Module IStream.

(** [std::isspace] in the classic locale. *)
Definition isspace (c : ascii) : bool :=
  let k := Z.of_N (N_of_ascii c) in
  (k =? 32) || ((9 <=? k) && (k <=? 13)).

Definition digit (c : ascii) : option Z :=
  let k := Z.of_N (N_of_ascii c) in
  if (48 <=? k) && (k <=? 57) then Some (k - 48) else None.

Fixpoint skipws (s : string) : string :=
  match s with
  | String c rest => if isspace c then skipws rest else s
  | EmptyString => s
  end.

(** Stage 2 after the sign: the longest run of decimal digits, accumulated
    as a number; [acc] is [None] until the first digit is seen. *)
Fixpoint digits (s : string) (acc : option Z) : option Z :=
  match s with
  | String c rest =>
      match digit c with
      | Some d => digits rest (Some (10 * default 0 acc + d))
      | None => acc
      end
  | EmptyString => acc
  end.

(** The field accumulated by stage 2: whether it starts with a minus sign,
    and the magnitude of its digits.  [None] when the field has no digit. *)
Definition numeral (s : string) : option (bool * Z) :=
  let field := skipws s in
  let '(negative, body) :=
    match field with
    | String c rest =>
        if Ascii.eqb c "-" then (true, rest)
        else if Ascii.eqb c "+" then (false, rest)
        else (false, field)
    | EmptyString => (false, field)
    end in
  v ← digits body None; Some (negative, v).

(** Stage 3 for an unsigned type of the given modulus.  [None] is a stream
    left in the failed state: no digit, or a magnitude that the type cannot
    represent.  A minus sign negates the magnitude in the unsigned type. *)
Definition extract_unsigned (modulus : Z) (s : string) : option Z :=
  match numeral s with
  | None => None
  | Some (negative, v) =>
      if modulus <=? v then None
      else Some (if negative then (modulus - v) mod modulus else v)
  end.

End IStream.

(** ** [main] *)

Section Main.

Context {F : Type} `{DoubleOps F}.

(** What the process leaves on its streams.  The two last output lines (the
    absolute error against a literal and the wall-clock time) are formatting
    of [pi_approx] and of the clock and are not modelled. *)
Inductive event :=
  | Cerr (msg : string)
  | CoutN (n : Z)
  | CoutThreads (num_threads : Z)
  | CoutPi (pi_approx : F).

Record run := Run {
  exit_code : Z;
  events : list event;
  work : option (computation F)
}.

Definition newline : string := String (ascii_of_nat 10) EmptyString.

(** Lines 13-30.  [inl msg] is the early [return 1] with [msg] on [cerr];
    [inr (n, num_threads)] are the values line 32 starts from.
    [hardware_concurrency] is what [std::thread::hardware_concurrency()]
    returns. *)
Definition validate (hardware_concurrency : Z) (argv : list string)
  : string + Z * Z :=
  let argc := Z.of_nat (length argv) in
  let n := 100000000 in
  let num_threads := hardware_concurrency in
  let num_threads := if num_threads =? 0 then 1 else num_threads in
  let bad_n arg := inl ("Niepoprawna wartosc n: " +:+ arg +:+ newline)%string in
  let bad_threads arg :=
    inl ("Niepoprawna liczba watkow: " +:+ arg +:+ newline)%string in
  match (if 2 <=? argc then
           let arg := default EmptyString (argv !! 1%nat) in
           match IStream.extract_unsigned modulus64 arg with
           | Some n' => if n' =? 0 then bad_n arg else inr n'
           | None => bad_n arg
           end
         else inr n) with
  | inl e => inl e
  | inr n =>
      match (if 3 <=? argc then
               let arg := default EmptyString (argv !! 2%nat) in
               match IStream.extract_unsigned modulus32 arg with
               | Some w => if w =? 0 then bad_threads arg else inr w
               | None => bad_threads arg
               end
             else inr num_threads) with
      | inl e => inl e
      | inr num_threads => inr (n, num_threads)
      end
  end.

(** Line 32. *)
Definition clamp_threads (num_threads n : Z) : Z :=
  if n <? num_threads then wrap32 (Z.min num_threads n) else num_threads.

Definition main_with (sched : list (thread F) -> list (thread F))
    (hardware_concurrency : Z) (argv : list string) : option run :=
  match validate hardware_concurrency argv with
  | inl msg => Some (Run 1 [Cerr msg] None)
  | inr (n, num_threads) =>
      let num_threads := clamp_threads num_threads n in
      c ← compute_with sched n num_threads;
      Some (Run 0 [CoutN n; CoutThreads num_threads; CoutPi (c_pi_approx c)]
              (Some c))
  end.

Definition main : Z -> list string -> option run := main_with id.

End Main.

Arguments event : clear implicits.
Arguments run : clear implicits.

(** * Specification-side definitions

    What the specification says about the program, in its own terms; the
    properties below compare the embedding of [main] with these. *)

(** The closed forms the specification gives for range [t] of [w] over
    [0, n). *)
Definition range_start (n w t : Z) : Z := t * (n / w) + Z.min t (n mod w).
Definition range_len (n w t : Z) : Z :=
  n / w + (if t <? n mod w then 1 else 0).

Section SpecDefs.

Context {F : Type} `{DoubleOps F}.

(** The thread the closed forms describe for task index [t]. *)
Definition range_thread (n w : Z) (dx : F) (t : Z) : thread F :=
  Thread t (range_start n w t) (range_start n w t + range_len n w t) dx.

(** The indices a thread iterates over, in iteration order. *)
Definition indices (th : thread F) : list Z :=
  seqZ (th_start_idx th) (th_end_idx th - th_start_idx th).

Definition in_range (th : thread F) (i : Z) : Prop :=
  th_start_idx th <= i < th_end_idx th.

Definition chunk_len (th : thread F) : Z := th_end_idx th - th_start_idx th.

(** The sum the specification assigns to a range: the terms
    [4 / (1 + ((i + 0.5) * dx)^2)] for [i = start, ..., end - 1], added to
    [0.0] one after the other in that order. *)
Definition range_sum (start_idx end_idx : Z) (dx : F) : F :=
  fold_left
    (fun acc i =>
       let x := d_mul (d_add (d_of_u64 i) d_half) dx in
       d_add acc (d_div d_four (d_add d_one (d_mul x x))))
    (seqZ start_idx (end_idx - start_idx)) d_zero.

Definition thread_sum (th : thread F) : F :=
  range_sum (th_start_idx th) (th_end_idx th) (th_dx th).

(** The slot of [partial_sums] a thread writes. *)
Definition slot (th : thread F) : nat := Z.to_nat (th_t th).

(** A thread whose captured values are of the types the source gives them. *)
Definition well_formed (th : thread F) : Prop :=
  0 <= th_t th /\ 0 <= th_start_idx th /\ in_u64 (th_end_idx th).

(** A scheduler only reorders the threads it is given. *)
Definition fair (sched : list (thread F) -> list (thread F)) : Prop :=
  forall threads, sched threads ≡ₚ threads.

End SpecDefs.

(** An argument [operator>>] finds no number in: after optional white space
    and an optional sign there is no decimal digit. *)
Definition non_numeric (arg : string) : Prop := IStream.numeral arg = None.

(** An argument whose number is zero. *)
Definition denotes_zero (arg : string) : Prop :=
  exists negative, IStream.numeral arg = Some (negative, 0).

(** ** Values of [double], as [Prim2SF] exposes them *)

(** [x] is not a NaN and carries the sign [s]. *)
Definition signed (s : bool) (x : spec_float) : Prop :=
  match x with
  | S754_nan => False
  | S754_zero s' | S754_infinity s' | S754_finite s' _ _ => s' = s
  end.

(** Magnitude of a finite number: digits of the mantissa plus exponent. *)
Definition magnitude (m : positive) (e : Z) : Z := Zpos (digits2_pos m) + e.

(** [x] is finite, positive and of magnitude between [lo] and [hi]. *)
Definition pos_finite (lo hi : Z) (x : spec_float) : Prop :=
  exists m e, x = S754_finite false m e /\ lo <= magnitude m e <= hi.

(** [x] is a zero or as [pos_finite] describes. *)
Definition zero_or_pos_finite (lo hi : Z) (x : spec_float) : Prop :=
  (exists s, x = S754_zero s) \/ pos_finite lo hi x.

(** [x] is plus infinity or a positive finite number of magnitude at least
    [lo]. *)
Definition at_least (lo : Z) (x : spec_float) : Prop :=
  x = S754_infinity false \/
  exists m e, x = S754_finite false m e /\ lo <= magnitude m e.

(** A [double] that is positive and finite: not a NaN, an infinity, a zero
    or a negative number. *)
Definition positive_finite (f : float) : bool :=
  ((0 <? f) && is_finite f)%float.

(** ** Arguments that validation turns away *)

(** An argument whose digits denote a magnitude the target type cannot
    hold. *)
Definition out_of_range (modulus : Z) (arg : string) : Prop :=
  exists negative v, IStream.numeral arg = Some (negative, v) /\ modulus <= v.

(** The arguments turned away when read into an unsigned type of the given
    modulus. *)
Definition rejected (modulus : Z) (arg : string) : Prop :=
  non_numeric arg \/ denotes_zero arg \/ out_of_range modulus arg.


(** The test of lines 19 and 26, [!(ss >> v) || v == 0]. *)
Definition fails_or_zero (modulus : Z) (arg : string) : bool :=
  match IStream.extract_unsigned modulus arg with
  | Some v => v =? 0
  | None => true
  end.

(** ** Arguments that are numbers as a whole *)



(** * Properties *)

(** ** Machine integers *)

Lemma wrap64_small z : in_u64 z -> wrap64 z = z.
Proof. unfold in_u64, wrap64. intros. apply Z.mod_small. lia. Qed.

Lemma wrap32_small z : in_u32 z -> wrap32 z = z.
Proof. unfold in_u32, wrap32. intros. apply Z.mod_small. lia. Qed.

(** ** The partition (lines 44-50) *)

Lemma range_start_0 n w : 0 < w -> range_start n w 0 = 0.
Proof.
  unfold range_start. intros Hw.
  pose proof (Z.mod_pos_bound n w Hw). lia.
Qed.

Lemma range_start_succ n w t :
  0 <= t -> range_start n w (t + 1) = range_start n w t + range_len n w t.
Proof.
  unfold range_start, range_len. intros Ht.
  destruct (Z.ltb_spec t (n mod w)); lia.
Qed.

Lemma range_start_full n w : 0 < w -> range_start n w w = n.
Proof.
  unfold range_start. intros Hw.
  pose proof (Z.mod_pos_bound n w Hw).
  pose proof (Z.div_mod n w). lia.
Qed.

Lemma range_len_nonneg n w t : 0 <= n -> 0 < w -> 0 <= range_len n w t.
Proof.
  unfold range_len. intros Hn Hw.
  pose proof (Z.div_pos n w Hn Hw). destruct (t <? n mod w); lia.
Qed.

Lemma range_start_mono n w t u :
  0 <= n -> 0 < w -> 0 <= t <= u -> range_start n w t <= range_start n w u.
Proof.
  unfold range_start. intros Hn Hw Htu.
  pose proof (Z.div_pos n w Hn Hw). nia.
Qed.

Lemma range_end_le n w t u :
  0 <= n -> 0 < w -> 0 <= t < u ->
  range_start n w t + range_len n w t <= range_start n w u.
Proof.
  intros Hn Hw Htu. rewrite <- range_start_succ by lia.
  apply range_start_mono; lia.
Qed.

Lemma range_end_bound n w t :
  0 <= n -> 0 < w -> 0 <= t < w ->
  range_start n w t + range_len n w t <= n.
Proof.
  intros Hn Hw Ht. rewrite <- (range_start_full n w Hw) at 3.
  apply range_end_le; lia.
Qed.

Lemma range_start_nonneg n w t :
  0 <= n -> 0 < w -> 0 <= t -> 0 <= range_start n w t.
Proof.
  intros. rewrite <- (range_start_0 n w) by lia. apply range_start_mono; lia.
Qed.

Section Partition.

Context {F : Type} `{DoubleOps F}.

(** None of the [uint64_t] operations of lines 48-50 wraps. *)
Lemma spawn_step_exact n w t :
  0 <= n -> in_u64 n -> 0 < w -> 0 <= t < w ->
  let start_idx := wrap64 (wrap64 (t * (n / w)) + Z.min t (n mod w)) in
  let chunk_size := wrap64 (n / w + (if t <? n mod w then 1 else 0)) in
  start_idx = range_start n w t /\
  chunk_size = range_len n w t /\
  wrap64 (start_idx + chunk_size) = range_start n w t + range_len n w t.
Proof.
  intros Hn Hn64 Hw Ht.
  pose proof (range_end_bound n w t Hn Hw Ht) as Hend.
  pose proof (range_start_nonneg n w t Hn Hw ltac:(lia)) as Hs.
  pose proof (range_len_nonneg n w t Hn Hw) as Hl.
  pose proof (Z.div_pos n w Hn Hw) as Hb.
  pose proof (Z.mod_pos_bound n w Hw) as Hr.
  unfold in_u64 in Hn64.
  assert (wrap64 (t * (n / w)) = t * (n / w)) as ->.
  { apply wrap64_small. unfold in_u64, range_start in *. nia. }
  cbn zeta. fold (range_start n w t). fold (range_len n w t).
  rewrite (wrap64_small (range_start n w t)) by (unfold in_u64; lia).
  rewrite (wrap64_small (range_len n w t)) by (unfold in_u64; lia).
  rewrite wrap64_small by (unfold in_u64; lia). done.
Qed.

Lemma spawn_loop_spec n w (dx : F) :
  0 <= n -> in_u64 n -> 0 < w -> in_u32 w ->
  forall fuel t acc,
    0 <= t <= w -> (Z.to_nat (w - t) <= fuel)%nat ->
    spawn_loop fuel t w (n / w) (n mod w) dx acc
    = Some (acc ++ (range_thread n w dx <$> seqZ t (w - t))).
Proof.
  intros Hn Hn64 Hw Hw32. induction fuel as [|fuel IH]; intros t acc Ht Hfuel;
    cbn [spawn_loop]; destruct (Z.ltb_spec t w) as [Hlt|Hge]; try lia.
  - replace (w - t) with 0 by lia. cbn. by rewrite app_nil_r.
  - destruct (spawn_step_exact n w t Hn Hn64 Hw ltac:(lia)) as (-> & -> & ->).
    rewrite wrap32_small by (unfold in_u32 in *; lia).
    rewrite IH by lia.
    rewrite (seqZ_cons t (w - t)) by lia. cbn [fmap list_fmap].
    rewrite <- app_assoc. cbn [app].
    replace (Z.succ t) with (t + 1) by lia.
    replace (Z.pred (w - t)) with (w - (t + 1)) by lia. done.
  - replace (w - t) with 0 by lia. cbn. by rewrite app_nil_r.
Qed.

(** The partitioner returns, and returns the threads of the closed forms. *)
Lemma partition_spec n w (dx : F) :
  0 <= n -> in_u64 n -> 0 < w -> in_u32 w ->
  partition n w dx = Some (range_thread n w dx <$> seqZ 0 w).
Proof.
  intros Hn Hn64 Hw Hw32. unfold partition.
  rewrite (spawn_loop_spec n w dx Hn Hn64 Hw Hw32) by lia.
  by rewrite Z.sub_0_r.
Qed.

End Partition.

Section PartitionFacts.

Context {F : Type} `{DoubleOps F}.

Lemma lookup_range_threads n w (dx : F) (i : nat) th :
  (range_thread n w dx <$> seqZ 0 w) !! i = Some th <->
  th = range_thread n w dx (Z.of_nat i) /\ Z.of_nat i < w.
Proof.
  rewrite list_lookup_fmap. split.
  - intros Hl. destruct (seqZ 0 w !! i) as [k|] eqn:Hk; [|done].
    apply lookup_seqZ in Hk as [-> ?]. cbn in Hl. inversion Hl; subst.
    rewrite Z.add_0_l. split; [done|lia].
  - intros [-> Hi]. rewrite lookup_seqZ_lt by lia. done.
Qed.

Lemma elem_of_range_threads n w (dx : F) th :
  th ∈ (range_thread n w dx <$> seqZ 0 w) <->
  exists t, th = range_thread n w dx t /\ 0 <= t < w.
Proof.
  rewrite list_elem_of_fmap. split.
  - intros (t & -> & Ht). apply elem_of_seqZ in Ht. exists t. split; [done|lia].
  - intros (t & -> & Ht). exists t. split; [done|]. apply elem_of_seqZ. lia.
Qed.

(** The ranges of the first [k] threads, one after the other, are the
    indices below the start of range [k]. *)
Lemma concat_indices_prefix n w (dx : F) (k : nat) :
  0 <= n -> 0 < w ->
  concat (indices <$> (range_thread n w dx <$> seqZ 0 (Z.of_nat k)))
  = seqZ 0 (range_start n w (Z.of_nat k)).
Proof.
  intros Hn Hw. induction k as [|k IH].
  - cbn. by rewrite range_start_0.
  - rewrite Nat2Z.inj_succ, <- Z.add_1_r.
    rewrite seqZ_app by lia. rewrite !fmap_app, concat_app, IH.
    rewrite range_start_succ by lia.
    rewrite (seqZ_app 0 (range_start n w (Z.of_nat k)))
      by (auto using range_len_nonneg; apply range_start_nonneg; lia).
    f_equal.
    assert (seqZ (0 + Z.of_nat k) 1 = [Z.of_nat k]) as ->
      by (unfold seqZ; cbn; f_equal; lia).
    cbn. rewrite app_nil_r. unfold indices. cbn. f_equal. lia.
Qed.

Lemma concat_indices n w (dx : F) :
  0 <= n -> 0 < w ->
  concat (indices <$> (range_thread n w dx <$> seqZ 0 w)) = seqZ 0 n.
Proof.
  intros Hn Hw. rewrite <- (Z2Nat.id w) by lia.
  rewrite concat_indices_prefix by lia.
  rewrite Z2Nat.id by lia. by rewrite range_start_full.
Qed.

End PartitionFacts.

(** ** The thread body and the reduction (lines 52-66) *)

Section Reduction.

Context {F : Type} `{DoubleOps F}.

Lemma integrate_loop_spec dx end_idx :
  in_u64 end_idx ->
  forall fuel i acc,
    0 <= i -> (Z.to_nat (end_idx - i) <= fuel)%nat ->
    integrate_loop fuel i end_idx dx acc
    = Some (fold_left
              (fun acc i =>
                 let x := d_mul (d_add (d_of_u64 i) d_half) dx in
                 d_add acc (d_div d_four (d_add d_one (d_mul x x))))
              (seqZ i (end_idx - i)) acc).
Proof.
  intros Hend. induction fuel as [|fuel IH]; intros i acc Hi Hfuel;
    cbn [integrate_loop]; destruct (Z.ltb_spec i end_idx) as [Hlt|Hge]; try lia.
  - rewrite (seqZ_nil i (end_idx - i)) by lia. done.
  - rewrite wrap64_small by (unfold in_u64 in *; lia).
    rewrite IH by lia.
    rewrite (seqZ_cons i (end_idx - i)) by lia. cbn [fold_left].
    replace (Z.succ i) with (i + 1) by lia.
    replace (Z.pred (end_idx - i)) with (end_idx - (i + 1)) by lia. done.
  - rewrite (seqZ_nil i (end_idx - i)) by lia. done.
Qed.

Lemma local_sum_of_spec th :
  well_formed th -> local_sum_of th = Some (thread_sum th).
Proof.
  intros (_ & Hs & He). unfold local_sum_of, thread_sum, range_sum.
  by rewrite (integrate_loop_spec _ _ He) by lia.
Qed.

Lemma thread_body_spec ps th :
  well_formed th ->
  thread_body ps th = Some (<[slot th := thread_sum th]> ps).
Proof.
  intros Hwf. unfold thread_body. by rewrite local_sum_of_spec.
Qed.

(** Threads that write pairwise distinct slots can finish in any order: each
    slot they own holds its owner's sum, every other slot is untouched. *)
Lemma run_threads_spec (sch : list (thread F)) :
  Forall well_formed sch -> NoDup (slot <$> sch) ->
  forall ps, exists ps',
    run_threads sch ps = Some ps' /\
    length ps' = length ps /\
    (forall th, th ∈ sch -> (slot th < length ps)%nat ->
       ps' !! slot th = Some (thread_sum th)) /\
    (forall k, k ∉ slot <$> sch -> ps' !! k = ps !! k).
Proof.
  induction sch as [|th rest IH]; intros Hwf Hnd ps.
  - exists ps. cbn. split_and!; [done..| |done].
    intros th Hth. by apply elem_of_nil in Hth.
  - apply Forall_cons in Hwf as [Hth Hrest].
    rewrite fmap_cons in Hnd. apply NoDup_cons in Hnd as [Hnotin Hnd].
    destruct (IH Hrest Hnd (<[slot th := thread_sum th]> ps))
      as (ps' & Hrun & Hlen & Hown & Hother).
    rewrite length_insert in Hlen.
    exists ps'. cbn [run_threads]. rewrite thread_body_spec by done.
    cbn. split_and!; [done..| |].
    + intros th' [->|Hin]%elem_of_cons Hslot.
      * rewrite Hother by done. by apply list_lookup_insert_eq.
      * apply Hown; [done|]. by rewrite length_insert.
    + intros k Hk. try rewrite fmap_cons in Hk.
      apply not_elem_of_cons in Hk as [Hne Hk].
      rewrite Hother by done. by apply list_lookup_insert_ne.
Qed.

Lemma range_thread_well_formed n w (dx : F) t :
  0 <= n -> in_u64 n -> 0 < w -> 0 <= t < w ->
  well_formed (range_thread n w dx t).
Proof.
  intros Hn Hn64 Hw Ht. unfold well_formed, range_thread; cbn.
  pose proof (range_end_bound n w t Hn Hw Ht).
  pose proof (range_start_nonneg n w t Hn Hw ltac:(lia)).
  pose proof (range_len_nonneg n w t Hn Hw).
  unfold in_u64 in *. lia.
Qed.

Lemma slots_of_range_threads n w (dx : F) :
  slot <$> (range_thread n w dx <$> seqZ 0 w) = seq 0 (Z.to_nat w).
Proof.
  rewrite <- list_fmap_compose. unfold seqZ.
  rewrite <- list_fmap_compose.
  rewrite <- (list_fmap_id (seq 0 (Z.to_nat w))) at 2.
  apply list_fmap_ext. intros i k _. unfold slot; cbn. lia.
Qed.

(** The store after every thread has finished, whatever the order. *)
Lemma run_range_threads n w (dx : F) (sch : list (thread F)) :
  0 <= n -> in_u64 n -> 0 < w ->
  sch ≡ₚ (range_thread n w dx <$> seqZ 0 w) ->
  run_threads sch (replicate (Z.to_nat w) d_zero)
  = Some (thread_sum <$> (range_thread n w dx <$> seqZ 0 w)).
Proof.
  intros Hn Hn64 Hw Hperm.
  set (threads := range_thread n w dx <$> seqZ 0 w) in *.
  assert (Forall well_formed sch) as Hwf.
  { rewrite Hperm. apply Forall_forall. intros th Hth.
    apply elem_of_range_threads in Hth as (t & -> & Ht).
    by apply range_thread_well_formed. }
  assert (NoDup (slot <$> sch)) as Hnd.
  { rewrite Hperm. unfold threads. rewrite slots_of_range_threads.
    apply NoDup_seq. }
  destruct (run_threads_spec sch Hwf Hnd (replicate (Z.to_nat w) d_zero))
    as (ps' & -> & Hlen & Hown & _).
  rewrite length_replicate in Hlen, Hown.
  f_equal. apply list_eq. intros k.
  destruct (decide (k < Z.to_nat w)%nat) as [Hk|Hk].
  - assert (range_thread n w dx (Z.of_nat k) ∈ sch) as Hin.
    { rewrite Hperm. apply elem_of_range_threads. eexists. split; [done|lia]. }
    specialize (Hown _ Hin). unfold slot at 1 2 in Hown. cbn in Hown.
    rewrite Nat2Z.id in Hown. rewrite Hown by done.
    unfold threads. rewrite list_lookup_fmap.
    rewrite (proj2 (lookup_range_threads n w dx k
                      (range_thread n w dx (Z.of_nat k)))); [done|].
    split; [done|lia].
  - rewrite !lookup_ge_None_2; [done| |lia].
    unfold threads. rewrite !length_fmap, length_seqZ. lia.
Qed.

(** [compute_with] returns for every valid configuration, and what it
    returns does not depend on the order in which the threads finish. *)
Lemma compute_with_spec sched n w :
  fair sched -> 0 <= n -> in_u64 n -> 0 < w -> in_u32 w ->
  let dx := d_div d_one (d_of_u64 n) in
  let threads := range_thread n w dx <$> seqZ 0 w in
  compute_with sched n w
  = Some (Computation dx threads (thread_sum <$> threads)
            (d_mul (fold_left d_add (thread_sum <$> threads) d_zero) dx)).
Proof.
  intros Hfair Hn Hn64 Hw Hw32 dx threads. unfold compute_with.
  rewrite partition_spec by done. cbn [mbind option_bind].
  rewrite (run_range_threads n w dx) by done. done.
Qed.

End Reduction.

(** ** Validation and [main] (lines 13-35) *)

Lemma digits_nonneg s acc :
  (forall a, acc = Some a -> 0 <= a) ->
  forall v, IStream.digits s acc = Some v -> 0 <= v.
Proof.
  revert acc. induction s as [|c rest IH]; intros acc Hacc v; cbn.
  - apply Hacc.
  - unfold IStream.digit.
    destruct (_ && _) eqn:Hc; [|apply Hacc].
    apply IH. intros a [= <-].
    apply andb_prop in Hc as [?%Z.leb_le ?%Z.leb_le].
    destruct acc as [a|]; cbn; [specialize (Hacc a eq_refl)|]; lia.
Qed.

Lemma numeral_nonneg s sg v : IStream.numeral s = Some (sg, v) -> 0 <= v.
Proof.
  unfold IStream.numeral.
  destruct (match IStream.skipws s with String _ _ => _ | EmptyString => _ end)
    as [negative body].
  destruct (IStream.digits body None) as [v'|] eqn:Hd; [|done].
  intros [= _ <-]. by apply (digits_nonneg body None).
Qed.

(** A successful extraction yields a value of the target type. *)
Lemma extract_unsigned_range modulus s v :
  0 < modulus ->
  IStream.extract_unsigned modulus s = Some v -> 0 <= v < modulus.
Proof.
  intros Hm. unfold IStream.extract_unsigned.
  destruct (IStream.numeral s) as [[sg m]|] eqn:Hn; [|done].
  apply numeral_nonneg in Hn.
  destruct (Z.leb_spec modulus m); [done|].
  intros [= <-]. destruct sg; [apply Z.mod_pos_bound|]; lia.
Qed.

(** The values validation lets through fit their types and are not zero. *)
Lemma validate_range hw argv n w :
  in_u32 hw -> validate hw argv = inr (n, w) ->
  (1 <= n /\ in_u64 n) /\ (1 <= w /\ in_u32 w).
Proof.
  intros Hhw. unfold validate.
  assert (1 <= 100000000 /\ in_u64 100000000) as Hdef
    by (unfold in_u64, modulus64; lia).
  assert (1 <= (if hw =? 0 then 1 else hw) /\
          in_u32 (if hw =? 0 then 1 else hw)) as Hhw'.
  { unfold in_u32, modulus32 in *. destruct (Z.eqb_spec hw 0); lia. }
  revert Hdef Hhw'. generalize 100000000 (if hw =? 0 then 1 else hw).
  intros n0 w0 Hn0 Hw0 Hv.
  assert (forall m s v, 0 < m -> IStream.extract_unsigned m s = Some v ->
            (v =? 0) = false -> 1 <= v /\ 0 <= v < m) as Hex.
  { intros m s v Hm He Hz. apply extract_unsigned_range in He; [|done].
    apply Z.eqb_neq in Hz. lia. }
  repeat case_match; simplify_eq; split;
    try done; (eapply Hex; [|eassumption|eassumption]);
    unfold modulus64, modulus32; lia.
Qed.

Section MainFacts.

Context {F : Type} `{DoubleOps F}.

(** Line 32 computes the minimum of the two counts. *)
Lemma clamp_threads_min w n :
  in_u32 w -> 0 <= n -> clamp_threads w n = Z.min w n.
Proof.
  intros Hw Hn. unfold clamp_threads.
  destruct (Z.ltb_spec n w); [|lia].
  apply wrap32_small. unfold in_u32 in *. lia.
Qed.

(** A run whose arguments pass validation completes with exit status 0. *)
Lemma main_with_valid sched hw argv n w :
  fair sched -> in_u32 hw -> validate hw argv = inr (n, w) ->
  let w' := Z.min w n in
  let dx := d_div d_one (d_of_u64 n) in
  let threads := range_thread n w' dx <$> seqZ 0 w' in
  let c := Computation dx threads (thread_sum <$> threads)
             (d_mul (fold_left d_add (thread_sum <$> threads) d_zero) dx) in
  main_with sched hw argv
  = Some (Run 0 [CoutN n; CoutThreads w'; CoutPi (c_pi_approx c)] (Some c)).
Proof.
  intros Hfair Hhw Hv. cbn zeta. unfold main_with. rewrite Hv.
  apply validate_range in Hv as ((Hn & Hn64) & (Hw & Hw32)); [|done].
  rewrite clamp_threads_min by (done || lia).
  rewrite compute_with_spec; [done|done|lia|done|lia|].
  unfold in_u32 in *. lia.
Qed.

End MainFacts.

(** ** Folds *)

Lemma fold_left_ext_elem {A B} (f g : A -> B -> A) (l : list B) (a : A) :
  (forall acc x, x ∈ l -> f acc x = g acc x) ->
  fold_left f l a = fold_left g l a.
Proof.
  revert a. induction l as [|x l IH]; intros a Hfg; [done|]. cbn.
  rewrite Hfg by left. apply IH. intros acc y Hy. apply Hfg. by right.
Qed.

(** A range-based [for] over a vector visits its slots by ascending index. *)
Lemma fold_left_by_index {A} (f : A -> A -> A) (d : A) (l : list A) (a : A) :
  fold_left f l a
  = fold_left (fun acc t => f acc (default d (l !! t))) (seq 0 (length l)) a.
Proof.
  revert a. induction l as [|v l IH] using rev_ind; intros a; [done|].
  rewrite length_app, Nat.add_1_r, seq_S, !fold_left_app. cbn.
  rewrite lookup_app_r, Nat.sub_diag by lia. cbn. f_equal.
  rewrite IH. apply fold_left_ext_elem. intros acc t Ht.
  apply elem_of_seq in Ht. by rewrite lookup_app_l by lia.
Qed.

(** ** Binary64 arithmetic

    Facts about the rounding of [SpecFloat], to which the axioms of
    [FloatAxioms] relate the primitive operations on [float]. *)

(** Number of binary digits *)
Lemma digits2_pos_bounds (p : positive) :
  2 ^ (Zpos (digits2_pos p) - 1) <= Zpos p < 2 ^ Zpos (digits2_pos p).
Proof.
  induction p as [p IH|p IH|]; cbn [digits2_pos].
  - rewrite Pos2Z.inj_succ, Z.pow_succ_r by lia.
    replace (Z.succ (Zpos (digits2_pos p)) - 1) with (Z.succ (Zpos (digits2_pos p) - 1)) by lia.
    rewrite Z.pow_succ_r by lia. lia.
  - rewrite Pos2Z.inj_succ, Z.pow_succ_r by lia.
    replace (Z.succ (Zpos (digits2_pos p)) - 1) with (Z.succ (Zpos (digits2_pos p) - 1)) by lia.
    rewrite Z.pow_succ_r by lia. lia.
  - cbn. lia.
Qed.

Lemma Zdigits2_bounds m :
  0 < m -> 1 <= Zdigits2 m /\ 2 ^ (Zdigits2 m - 1) <= m < 2 ^ Zdigits2 m.
Proof.
  destruct m as [|p|p]; try lia. intros _. cbn [Zdigits2].
  split; [lia|apply digits2_pos_bounds].
Qed.

Lemma Zdigits2_le m k : 0 < m -> m < 2 ^ k -> Zdigits2 m <= k.
Proof.
  intros Hm Hk. destruct (Zdigits2_bounds m Hm) as (Hd & Hlo & _).
  destruct (Z.le_gt_cases (Zdigits2 m) k) as [|Hgt]; [done|].
  assert (0 <= k) by (destruct (Z.le_gt_cases 0 k); [done|]; rewrite Z.pow_neg_r in Hk; lia).
  assert (2 ^ k <= 2 ^ (Zdigits2 m - 1)) by (apply Z.pow_le_mono_r; lia). lia.
Qed.

Lemma Zdigits2_ge m k : 0 < m -> 2 ^ (k - 1) <= m -> k <= Zdigits2 m.
Proof.
  intros Hm Hk. destruct (Zdigits2_bounds m Hm) as (Hd & _ & Hhi).
  destruct (Z.le_gt_cases k (Zdigits2 m)) as [|Hgt]; [done|].
  assert (2 ^ Zdigits2 m <= 2 ^ (k - 1)) by (apply Z.pow_le_mono_r; lia). lia.
Qed.

Lemma Zdigits2_unique m k :
  0 < m -> 2 ^ (k - 1) <= m < 2 ^ k -> Zdigits2 m = k.
Proof.
  intros Hm [Hlo Hhi]. apply Z.le_antisymm.
  - by apply Zdigits2_le.
  - by apply Zdigits2_ge.
Qed.

Lemma Zdigits2_div_pow2 m k :
  0 < m -> 0 <= k < Zdigits2 m ->
  0 < m / 2 ^ k /\ Zdigits2 (m / 2 ^ k) = Zdigits2 m - k.
Proof.
  intros Hm Hk. destruct (Zdigits2_bounds m Hm) as (Hd & Hlo & Hhi).
  assert (0 < 2 ^ k) by (apply Z.pow_pos_nonneg; lia).
  assert (2 ^ (Zdigits2 m - k - 1) <= m / 2 ^ k) as Hq.
  { apply Z.div_le_lower_bound; [done|].
    rewrite Z.mul_comm, <- Z.pow_add_r by lia.
    replace (Zdigits2 m - k - 1 + k) with (Zdigits2 m - 1) by lia. done. }
  assert (0 < 2 ^ (Zdigits2 m - k - 1)) by (apply Z.pow_pos_nonneg; lia).
  split; [lia|]. apply Zdigits2_unique; [lia|]. split; [done|].
  apply Z.div_lt_upper_bound; [done|].
  rewrite <- Z.pow_add_r by lia.
  replace (k + (Zdigits2 m - k)) with (Zdigits2 m) by lia. done.
Qed.

Lemma Zdigits2_succ m : 0 < m -> Zdigits2 m <= Zdigits2 (m + 1) <= Zdigits2 m + 1.
Proof.
  intros Hm. destruct (Zdigits2_bounds m Hm) as (Hd & Hlo & Hhi). split.
  - apply Zdigits2_ge; lia.
  - apply Zdigits2_le; [lia|]. rewrite Z.pow_add_r by lia. lia.
Qed.

Lemma Zdigits2_add a b :
  0 < a -> 0 < b ->
  Z.max (Zdigits2 a) (Zdigits2 b) <= Zdigits2 (a + b)
  <= Z.max (Zdigits2 a) (Zdigits2 b) + 1.
Proof.
  intros Ha Hb.
  destruct (Zdigits2_bounds a Ha) as (Hda & Hloa & Hhia).
  destruct (Zdigits2_bounds b Hb) as (Hdb & Hlob & Hhib).
  split.
  - apply Z.max_lub; apply Zdigits2_ge; lia.
  - apply Zdigits2_le; [lia|]. rewrite Z.pow_add_r by lia.
    assert (2 ^ Zdigits2 a <= 2 ^ Z.max (Zdigits2 a) (Zdigits2 b)) by (apply Z.pow_le_mono_r; lia).
    assert (2 ^ Zdigits2 b <= 2 ^ Z.max (Zdigits2 a) (Zdigits2 b)) by (apply Z.pow_le_mono_r; lia).
    lia.
Qed.

Lemma Zdigits2_mul_pow2 m k :
  0 < m -> 0 <= k -> Zdigits2 (m * 2 ^ k) = Zdigits2 m + k.
Proof.
  intros Hm Hk. destruct (Zdigits2_bounds m Hm) as (Hd & Hlo & Hhi).
  assert (0 < 2 ^ k) by (apply Z.pow_pos_nonneg; lia).
  apply Zdigits2_unique; [nia|].
  replace (Zdigits2 m + k - 1) with ((Zdigits2 m - 1) + k) by lia.
  rewrite !Z.pow_add_r by lia. nia.
Qed.

Lemma fexp64 k : fexp prec emax k = Z.max (k - 53) (-1074).
Proof. reflexivity. Qed.

Lemma shr_1_div2 r : 0 <= shr_m r -> shr_m (shr_1 r) = shr_m r / 2.
Proof.
  destruct r as [m rb sb]. cbn [shr_m]. intros Hm.
  destruct m as [|[p|p|]|p]; cbn [shr_1 shr_m]; try lia.
  - done.
  - apply (Z.div_unique_pos _ _ _ 1); lia.
  - apply (Z.div_unique_pos _ _ _ 0); lia.
  - done.
Qed.

Lemma iter_shr_1_div p :
  forall r, 0 <= shr_m r ->
    shr_m (SpecFloat.iter_pos shr_1 p r) = shr_m r / 2 ^ Zpos p.
Proof.
  assert (forall m k, 0 <= m -> 0 <= k -> 0 <= m / 2 ^ k) as Hnn.
  { intros m k Hm Hk. apply Z.div_pos; [done|]. apply Z.pow_pos_nonneg; lia. }
  assert (forall k : positive, 0 < 2 ^ Zpos k) as Hpow
    by (intros k; apply Z.pow_pos_nonneg; lia).
  induction p as [p IH|p IH|]; intros r Hr; cbn [SpecFloat.iter_pos].
  - pose proof (shr_1_div2 r Hr) as H1.
    assert (0 <= shr_m (shr_1 r)) as Hr1 by (rewrite H1; apply Z.div_pos; lia).
    pose proof (IH _ Hr1) as H2.
    assert (0 <= shr_m (SpecFloat.iter_pos shr_1 p (shr_1 r))) as Hr2
      by (rewrite H2; apply Z.div_pos; [lia|apply Hpow]).
    rewrite (IH _ Hr2), H2, H1.
    rewrite !Z.div_div by (apply Hpow || lia || (pose proof (Hpow p); lia)).
    f_equal. rewrite <- (Z.pow_1_r 2) at 1.
    rewrite <- !Z.pow_add_r by lia. f_equal. lia.
  - pose proof (IH _ Hr) as H1.
    assert (0 <= shr_m (SpecFloat.iter_pos shr_1 p r)) as Hr1
      by (rewrite H1; apply Z.div_pos; [lia|apply Hpow]).
    rewrite (IH _ Hr1), H1.
    rewrite Z.div_div by (apply Hpow || (pose proof (Hpow p); lia)).
    f_equal. rewrite <- Z.pow_add_r by lia. f_equal. lia.
  - rewrite shr_1_div2 by done. done.
Qed.

Lemma shr_spec r e n :
  0 <= shr_m r ->
  let k := Z.max 0 n in
  shr_m (fst (shr r e n)) = shr_m r / 2 ^ k /\ snd (shr r e n) = e + k.
Proof.
  intros Hr k. unfold shr. destruct n as [|p|p]; cbn [fst snd].
  - unfold k. cbn. rewrite Z.div_1_r. lia.
  - rewrite iter_shr_1_div by done. unfold k.
    replace (Z.max 0 (Zpos p)) with (Zpos p) by lia. done.
  - unfold k. replace (Z.max 0 (Zneg p)) with 0 by lia.
    cbn. rewrite Z.div_1_r. lia.
Qed.

Lemma shr_fexp_spec m e l :
  0 <= m ->
  let k := Z.max 0 (Z.max (Zdigits2 m + e - 53) (-1074) - e) in
  shr_m (fst (shr_fexp prec emax m e l)) = m / 2 ^ k /\
  snd (shr_fexp prec emax m e l) = e + k.
Proof.
  intros Hm k. unfold shr_fexp. rewrite fexp64.
  assert (shr_m (shr_record_of_loc m l) = m) as Hrec
    by (by destruct l as [|[]]).
  pose proof (shr_spec (shr_record_of_loc m l) e
                (Z.max (Zdigits2 m + e - 53) (-1074) - e)) as Hs.
  rewrite Hrec in Hs. by apply Hs.
Qed.

Lemma round_nearest_even_bounds m l :
  m <= round_nearest_even m l <= m + 1.
Proof.
  unfold round_nearest_even. destruct l as [|[]]; try lia.
  destruct (Z.even m); lia.
Qed.

Lemma div_pow2_nonneg m k : 0 <= m -> 0 <= m / 2 ^ k.
Proof.
  intros Hm. destruct (Z.le_gt_cases 0 k).
  - apply Z.div_pos; [done|]. apply Z.pow_pos_nonneg; lia.
  - rewrite Z.pow_neg_r by lia. by rewrite Z.div_0_r.
Qed.

Lemma binary_round_aux_signed s m e l :
  0 <= m -> signed s (binary_round_aux prec emax s m e l).
Proof.
  intros Hm. unfold binary_round_aux.
  destruct (shr_fexp_spec m e l Hm) as [H1 _].
  destruct (shr_fexp prec emax m e l) as [r1 e1]. cbn [fst] in H1.
  assert (0 <= shr_m r1) as Hr1 by (rewrite H1; by apply div_pow2_nonneg).
  pose proof (round_nearest_even_bounds (shr_m r1) (loc_of_shr_record r1)) as Hr.
  set (m1 := round_nearest_even (shr_m r1) (loc_of_shr_record r1)) in *.
  destruct (shr_fexp_spec m1 e1 loc_Exact ltac:(lia)) as [H2 _].
  destruct (shr_fexp prec emax m1 e1 loc_Exact) as [r2 e2]. cbn [fst] in H2.
  assert (0 <= shr_m r2) as Hr2 by (rewrite H2; apply div_pow2_nonneg; lia).
  destruct (shr_m r2) as [|p|p]; [done| |lia].
  by destruct (_ <=? _).
Qed.

(** Rounding a positive mantissa that is not in the underflow range: the
    result is finite or infinite, never zero, of magnitude (number of digits
    plus exponent) that of the input or one more, with at most 53 digits. *)
Lemma binary_round_aux_pos s p e l :
  let d := Zpos (digits2_pos p) in
  -1074 < d + e ->
  exists m2 e2,
    binary_round_aux prec emax s (Zpos p) e l
    = (if e2 <=? 971 then S754_finite s m2 e2 else S754_infinity s) /\
    d + e <= Zpos (digits2_pos m2) + e2 <= d + e + 1 /\
    Zpos (digits2_pos m2) <= 53 /\
    (e <= Z.max (d + e - 53) (-1074) ->
     e2 = Z.max (Zpos (digits2_pos m2) + e2 - 53) (-1074)).
Proof.
  intros d Hd. unfold binary_round_aux.
  destruct (shr_fexp_spec (Zpos p) e l ltac:(lia)) as [H1 He1].
  destruct (shr_fexp prec emax (Zpos p) e l) as [r1 e1].
  cbn [fst snd] in H1, He1. cbn [Zdigits2] in H1, He1. fold d in H1, He1.
  set (k1 := Z.max 0 (Z.max (d + e - 53) (-1074) - e)) in *.
  destruct (Zdigits2_div_pow2 (Zpos p) k1 ltac:(lia)) as [Hpos1 Hdig1].
  { cbn [Zdigits2]. fold d. lia. }
  cbn [Zdigits2] in Hdig1. fold d in Hdig1. rewrite <- H1 in Hpos1, Hdig1.
  pose proof (round_nearest_even_bounds (shr_m r1) (loc_of_shr_record r1)) as Hr.
  set (m1 := round_nearest_even (shr_m r1) (loc_of_shr_record r1)) in *.
  assert (Zdigits2 (shr_m r1) <= Zdigits2 m1 <= Zdigits2 (shr_m r1) + 1) as Hd1.
  { assert (m1 = shr_m r1 \/ m1 = shr_m r1 + 1) as [->| ->] by lia; [lia|].
    by apply Zdigits2_succ. }
  destruct (shr_fexp_spec m1 e1 loc_Exact ltac:(lia)) as [H2 He2].
  destruct (shr_fexp prec emax m1 e1 loc_Exact) as [r2 e2].
  cbn [fst snd] in H2, He2.
  set (k2 := Z.max 0 (Z.max (Zdigits2 m1 + e1 - 53) (-1074) - e1)) in *.
  destruct (Zdigits2_div_pow2 m1 k2 ltac:(lia) ltac:(lia)) as [Hpos2 Hdig2].
  rewrite <- H2 in Hpos2, Hdig2.
  destruct (shr_m r2) as [|m2|m2] eqn:Hm2; [lia| |lia].
  exists m2, e2. cbn [Zdigits2] in Hdig2. split; [done|].
  split; [lia|]. split; [lia|]. intros He. lia.
Qed.

Lemma pos_iter_xO m d : Zpos (Pos.iter xO m d) = Zpos m * 2 ^ Zpos d.
Proof.
  apply (Pos.iter_ind _ xO m (fun d a => Zpos a = Zpos m * 2 ^ Zpos d)).
  - rewrite Z.pow_1_r. lia.
  - intros p a IH. rewrite Pos2Z.inj_succ, Z.pow_succ_r by lia.
    rewrite Pos2Z.inj_xO, IH. lia.
Qed.

Lemma shl_align_spec mx ex ex' :
  let '(m', e') := shl_align mx ex ex' in
  e' = Z.min ex ex' /\ Zpos m' = Zpos mx * 2 ^ (ex - e') /\
  magnitude m' e' = magnitude mx ex.
Proof.
  unfold shl_align, magnitude.
  destruct (ex' - ex) as [|d|d] eqn:Hd.
  - split; [lia|]. rewrite Z.sub_diag. cbn. split; lia.
  - split; [lia|]. rewrite Z.sub_diag. cbn. split; lia.
  - split; [lia|]. assert (ex - ex' = Zpos d) as -> by lia.
    split; [apply pos_iter_xO|].
    change (Zpos (digits2_pos (Pos.iter xO mx d)))
      with (Zdigits2 (Zpos (Pos.iter xO mx d))).
    rewrite pos_iter_xO, Zdigits2_mul_pow2 by lia. cbn [Zdigits2]. lia.
Qed.

(** [binary_round] aligns the mantissa first, so what it returns is in
    canonical form. *)
Lemma binary_round_cases s p e :
  -1074 < magnitude p e ->
  exists m2 e2,
    binary_round prec emax s p e
    = (if e2 <=? 971 then S754_finite s m2 e2 else S754_infinity s) /\
    magnitude p e <= magnitude m2 e2 <= magnitude p e + 1 /\
    Zpos (digits2_pos m2) <= 53 /\
    e2 = Z.max (magnitude m2 e2 - 53) (-1074).
Proof.
  intros Hmag. unfold binary_round.
  pose proof (shl_align_spec p e (fexp prec emax (Zpos (digits2_pos p) + e)))
    as Hal.
  destruct (shl_align _ _ _) as [mz ez]. destruct Hal as (Hez & _ & Hm).
  rewrite fexp64 in Hez. fold (magnitude p e) in Hez.
  rewrite <- Hm in *. unfold magnitude in *.
  destruct (binary_round_aux_pos s mz ez loc_Exact Hmag)
    as (m2 & e2 & Hr & Hmag2 & Hp & Hcan).
  exists m2, e2. split; [done|]. split; [done|]. split; [done|].
  apply Hcan. lia.
Qed.

(** The sum of two positive finite numbers. *)
Lemma SFadd_finite_cases mx ex my ey :
  let mu := Z.max (magnitude mx ex) (magnitude my ey) in
  -1074 < mu ->
  exists m2 e2,
    SFadd prec emax (S754_finite false mx ex) (S754_finite false my ey)
    = (if e2 <=? 971 then S754_finite false m2 e2 else S754_infinity false) /\
    mu <= magnitude m2 e2 <= mu + 2 /\
    Zpos (digits2_pos m2) <= 53.
Proof.
  intros mu Hmu. cbn [SFadd cond_Zopp].
  set (ez := Z.min ex ey).
  pose proof (shl_align_spec mx ex ez) as Ha.
  pose proof (shl_align_spec my ey ez) as Hb.
  destruct (shl_align mx ex ez) as [a ea], (shl_align my ey ez) as [b eb].
  destruct Ha as (Hea & _ & Hma), Hb as (Heb & _ & Hmb). cbn [fst].
  assert (ea = ez /\ eb = ez) as [-> ->] by (unfold ez in *; lia).
  change (Zpos a + Zpos b) with (Zpos (a + b)). cbn [binary_normalize].
  pose proof (Zdigits2_add (Zpos a) (Zpos b) ltac:(lia) ltac:(lia)) as Hd.
  change (Zpos a + Zpos b) with (Zpos (a + b)) in Hd. cbn [Zdigits2] in Hd.
  unfold magnitude in *.
  destruct (binary_round_cases false (a + b) ez)
    as (m2 & e2 & Hr & Hm & Hp & _).
  { unfold magnitude. lia. }
  exists m2, e2. split; [done|]. unfold magnitude in *. lia.
Qed.

Lemma SFadd_finite lo1 hi1 lo2 hi2 x y :
  pos_finite lo1 hi1 x -> pos_finite lo2 hi2 y ->
  -1074 < Z.max lo1 lo2 -> Z.max hi1 hi2 <= 968 ->
  pos_finite (Z.max lo1 lo2) (Z.max hi1 hi2 + 2) (SFadd prec emax x y).
Proof.
  intros (mx & ex & -> & Hx) (my & ey & -> & Hy) Hlo Hhi.
  destruct (SFadd_finite_cases mx ex my ey ltac:(lia))
    as (m2 & e2 & -> & Hm & Hp).
  unfold magnitude in *.
  destruct (Z.leb_spec e2 971); [|lia].
  exists m2, e2. split; [done|]. unfold magnitude. lia.
Qed.

Lemma signed_not_nan s x : signed s x -> x <> S754_nan.
Proof. by destruct x. Qed.

Lemma SFdiv_finite_signed sx mx ex sy my ey :
  signed (xorb sx sy)
    (SFdiv prec emax (S754_finite sx mx ex) (S754_finite sy my ey)).
Proof.
  cbn [SFdiv]. unfold SFdiv_core_binary.
  set (m' := match _ - _ - _ with Z0 => _ | Zpos _ => _ | Zneg _ => _ end).
  assert (0 <= m') as Hm'.
  { unfold m'. destruct (_ - _ - _); [lia| |lia].
    apply Z.shiftl_nonneg. lia. }
  pose proof (Z.div_pos m' (Zpos my) Hm' ltac:(lia)) as Hq.
  unfold Z.div in Hq. destruct (Z.div_eucl m' (Zpos my)) as [q r].
  by apply binary_round_aux_signed.
Qed.

Lemma SFdiv_finite_not_nan sx mx ex y :
  (exists lo hi, zero_or_pos_finite lo hi y) ->
  SFdiv prec emax (S754_finite sx mx ex) y <> S754_nan.
Proof.
  intros (lo & hi & [[s ->]|(m & e & -> & _)]); [done|].
  eapply signed_not_nan, SFdiv_finite_signed.
Qed.

Lemma SFmul_finite_not_nan sx mx ex y :
  y <> S754_nan -> SFmul prec emax (S754_finite sx mx ex) y <> S754_nan.
Proof.
  intros Hy. destruct y as [s|s| |s m e]; [done|done|done|].
  cbn [SFmul]. eapply signed_not_nan, binary_round_aux_signed. lia.
Qed.

Lemma SFmul_self_signed x :
  x <> S754_nan -> signed false (SFmul prec emax x x).
Proof.
  intros Hx. destruct x as [s|s| |s m e]; [by destruct s|by destruct s|done|].
  cbn [SFmul]. replace (xorb s s) with false by (by destruct s).
  apply binary_round_aux_signed. lia.
Qed.

(** Adding a non-negative number to 1.0 gives at least 1.0. *)
Lemma SFadd_one_ge_one y :
  signed false y ->
  let one := S754_finite false 4503599627370496 (-52) in
  SFleb one (SFadd prec emax one y) = true.
Proof.
  intros Hy one. destruct y as [s|s| |s m e]; cbn in Hy; subst; try done.
  destruct (SFadd_finite_cases 4503599627370496 (-52) m e)
    as (m2 & e2 & Hadd & Hm & Hp).
  { unfold magnitude. cbn [digits2_pos Pos.succ]. lia. }
  unfold one. rewrite Hadd. destruct (e2 <=? 971); [|reflexivity].
  unfold magnitude in Hm. cbn [digits2_pos Pos.succ] in Hm.
  unfold SFleb, SFcompare.
  destruct (Z.compare_spec (-52) e2) as [He|He|He]; [|done|lia].
  subst e2. assert (Zpos (digits2_pos m2) = 53) as Hd by lia.
  pose proof (digits2_pos_bounds m2) as Hb. rewrite Hd in Hb.
  change (Pos.compare_cont Eq ?a ?b) with (Pos.compare a b).
  destruct (Pos.compare_spec 4503599627370496 m2) as [?|?|Hlt];
    [reflexivity|reflexivity|].
  change (2 ^ (53 - 1)) with 4503599627370496 in Hb. destruct Hb as [Hb _].
  apply Pos2Z.pos_lt_pos in Hlt. clear -Hb Hlt. lia.
Qed.

(** The conversion is the rounding of the integer itself: a zero, or a
    positive finite number below 2^65. *)
Lemma u64_to_double_spec z :
  in_u64 z ->
  Prim2SF (u64_to_double z) = binary_normalize prec emax z 0 false /\
  zero_or_pos_finite 1 65 (binary_normalize prec emax z 0 false).
Proof.
  intros Hz. unfold in_u64, modulus64 in Hz. unfold u64_to_double.
  destruct z as [|p|p]; [| |lia].
  - split; [reflexivity|]. left. by eexists.
  - cbn [binary_normalize].
    assert (1 <= magnitude p 0 <= 64) as Hmag.
    { unfold magnitude. split; [lia|].
      pose proof (Zdigits2_le (Zpos p) 64 ltac:(lia) ltac:(lia)) as Hd.
      cbn [Zdigits2] in Hd. lia. }
    clear Hz.
    destruct (binary_round_cases false p 0 ltac:(lia))
      as (m2 & e2 & -> & Hm & Hp & Hcan).
    unfold magnitude in *. destruct (Z.leb_spec e2 971) as [He|He]; [|lia].
    split.
    + apply Prim2SF_SF2Prim. cbn [valid_binary]. unfold bounded.
      apply andb_true_intro. split; [|apply Z.leb_le; exact He].
      unfold canonical_mantissa. rewrite fexp64. apply Z.eqb_eq. lia.
    + right. exists m2, e2. split; [done|]. unfold magnitude. lia.
Qed.

Lemma u64_to_double_range z :
  in_u64 z -> zero_or_pos_finite 1 65 (Prim2SF (u64_to_double z)).
Proof.
  intros Hz. destruct (u64_to_double_spec z Hz) as [-> Hr]. exact Hr.
Qed.

(** Where the primitive conversion of 63-bit integers applies, it agrees. *)
Lemma u64_to_double_of_uint63 z :
  0 <= z < 2 ^ 63 -> u64_to_double z = of_uint63 (Uint63.of_Z z).
Proof.
  intros Hz. apply Prim2SF_inj.
  destruct (u64_to_double_spec z) as [-> _]; [unfold in_u64, modulus64; lia|].
  rewrite FloatAxioms.of_uint63_spec, Uint63.of_Z_spec.
  by rewrite Z.mod_small by (change Uint63.wB with (2 ^ 63); lia).
Qed.

(** [static_cast<double>(i) + 0.5] is a positive finite number. *)
Lemma midpoint_numerator_finite i :
  in_u64 i ->
  exists m e, Prim2SF (u64_to_double i + 0.5)%float = S754_finite false m e.
Proof.
  intros Hi. rewrite FloatAxioms.add_spec. unfold SF64add.
  assert (pos_finite 0 0 (Prim2SF 0.5)) as Hhalf.
  { exists 4503599627370496%positive, (-53). split; [reflexivity|].
    unfold magnitude. cbn. lia. }
  destruct (u64_to_double_range i Hi) as [[s ->]|Hfin].
  - destruct Hhalf as (m & e & -> & _). cbn. eauto.
  - destruct (SFadd_finite _ _ _ _ _ _ Hfin Hhalf ltac:(lia) ltac:(lia))
      as (m & e & -> & _). eauto.
Qed.

Lemma SFeqb_refl x : x <> S754_nan -> SFeqb x x = true.
Proof.
  intros Hx. unfold SFeqb, SFcompare.
  destruct x as [s|s| |s m e]; [done|by destruct s|done|].
  rewrite Z.compare_refl.
  change (Pos.compare_cont Eq m m) with (Pos.compare m m).
  rewrite Pos.compare_refl. by destruct s.
Qed.

Lemma is_nan_false f : Prim2SF f <> S754_nan -> is_nan f = false.
Proof.
  intros Hf. unfold is_nan. by rewrite FloatAxioms.eqb_spec, SFeqb_refl.
Qed.

(** What is at least 1.0 is a positive finite number or plus infinity. *)
Lemma SFleb_one_cases m1 e1 x :
  SFleb (S754_finite false m1 e1) x = true ->
  x = S754_infinity false \/ exists m e, x = S754_finite false m e.
Proof.
  unfold SFleb, SFcompare.
  destruct x as [s|s| |s m e]; [done|destruct s|done|destruct s];
    intros Hle; try done; eauto.
Qed.

(** ** Independence of the worker count *)

Section Reassociation.

Context {F : Type} `{DoubleOps F}.

Hypothesis add_assoc :
  forall x y z : F, d_add x (d_add y z) = d_add (d_add x y) z.
Hypothesis add_zero_l : forall x : F, d_add d_zero x = x.
Hypothesis add_zero_r : forall x : F, d_add x d_zero = x.

Lemma fold_terms_shift (term : Z -> F) (l : list Z) (a : F) :
  fold_left (fun acc i => d_add acc (term i)) l a
  = d_add a (fold_left (fun acc i => d_add acc (term i)) l d_zero).
Proof.
  revert a. induction l as [|i l IH]; intros a; cbn.
  - by rewrite add_zero_r.
  - rewrite IH, (IH (d_add d_zero _)), add_zero_l. by rewrite add_assoc.
Qed.

Lemma fold_blocks (term : Z -> F) (blocks : list (list Z)) (a : F) :
  fold_left d_add
    ((fun l => fold_left (fun acc i => d_add acc (term i)) l d_zero)
       <$> blocks) a
  = fold_left (fun acc i => d_add acc (term i)) (concat blocks) a.
Proof.
  revert a. induction blocks as [|l blocks IH]; intros a; cbn; [done|].
  by rewrite fold_left_app, IH, <- fold_terms_shift.
Qed.

(** With an associative addition the sum of the partial sums is the sum of
    all N terms in ascending order, whatever the number of ranges. *)
Lemma total_sum_sequential n w :
  0 <= n -> 0 < w ->
  let dx := d_div d_one (d_of_u64 n) in
  fold_left d_add (thread_sum <$> (range_thread n w dx <$> seqZ 0 w)) d_zero
  = range_sum 0 n dx.
Proof.
  intros Hn Hw dx.
  unfold range_sum. rewrite Z.sub_0_r.
  rewrite <- (concat_indices n w dx Hn Hw).
  rewrite <- fold_blocks, <- !list_fmap_compose. done.
Qed.

End Reassociation.

(** ** Validation, case by case *)

Lemma fails_or_zero_rejected modulus arg :
  0 < modulus -> fails_or_zero modulus arg = true <-> rejected modulus arg.
Proof.
  intros Hm. unfold fails_or_zero, IStream.extract_unsigned, rejected,
    non_numeric, denotes_zero, out_of_range.
  destruct (IStream.numeral arg) as [[negative v]|] eqn:Hnum.
  - pose proof (numeral_nonneg _ _ _ Hnum) as Hv.
    destruct (Z.leb_spec modulus v) as [Hle|Hlt].
    + split; [|done]. intros _. right. right. by exists negative, v.
    + split.
      * intros Hz%Z.eqb_eq. right. left. exists negative.
        destruct negative; [|by subst].
        destruct (Z.eq_dec v 0) as [->|Hne]; [done|].
        rewrite Z.mod_small in Hz by lia. lia.
      * intros [?|[[neg' [= _ ->]]|(neg' & v' & [= _ <-] & ?)]];
          [done| |lia].
        destruct negative; [|done].
        rewrite Z.sub_0_r, Z.mod_same by lia. done.
  - split; [by left|done].
Qed.

Lemma argument_present (argv : list string) (k : nat) :
  (Z.of_nat (S k) <=? Z.of_nat (length argv))
  = match argv !! k with Some _ => true | None => false end.
Proof.
  destruct (argv !! k) eqn:Hk.
  - apply lookup_lt_Some in Hk. apply Z.leb_le. lia.
  - apply lookup_ge_None in Hk. apply Z.leb_gt. lia.
Qed.

(** [validate], case by case on the arguments that are present. *)
Lemma validate_cases hw argv :
  validate hw argv
  = match argv !! 1%nat with
    | None => inr (100000000, if hw =? 0 then 1 else hw)
    | Some a1 =>
        if fails_or_zero modulus64 a1
        then inl ("Niepoprawna wartosc n: " +:+ a1 +:+ newline)%string
        else
          match argv !! 2%nat with
          | None =>
              inr (default 0 (IStream.extract_unsigned modulus64 a1),
                   if hw =? 0 then 1 else hw)
          | Some a2 =>
              if fails_or_zero modulus32 a2
              then inl ("Niepoprawna liczba watkow: " +:+ a2 +:+ newline)%string
              else inr (default 0 (IStream.extract_unsigned modulus64 a1),
                        default 0 (IStream.extract_unsigned modulus32 a2))
          end
    end.
Proof.
  unfold validate, fails_or_zero.
  change 2 with (Z.of_nat 2). change 3 with (Z.of_nat 3).
  rewrite !argument_present.
  assert (argv !! 1%nat = None -> argv !! 2%nat = None) as Hmono.
  { intros H1%lookup_ge_None. apply lookup_ge_None. lia. }
  destruct (argv !! 1%nat) as [a1|]; [|by rewrite Hmono].
  cbn [default from_option id].
  destruct (IStream.extract_unsigned modulus64 a1) as [n|]; [|done].
  destruct (n =? 0); [done|].
  destruct (argv !! 2%nat) as [a2|]; [|done].
  cbn [default from_option id].
  destruct (IStream.extract_unsigned modulus32 a2) as [w|]; [|done].
  by destruct (w =? 0).
Qed.


(** * The specification's claims *)

(** C1: for every N >= 1 and every W with 1 <= W <= N (N a [uint64_t], W an
    [unsigned int]), the partitioner returns exactly W ranges; range [t]
    starts at [t*(N/W) + min(t, N mod W)] and has length [N/W + 1] if
    [t < N mod W] and [N/W] otherwise; the ranges are pairwise disjoint,
    contiguous in ascending task order from 0 up to N, their concatenation in
    task order is the sequence [0, N), and any two lengths differ by at most
    1. *)
Theorem partition_balanced_cover {F : Type} `{DoubleOps F}
    (n w : Z) (dx : F) :
  1 <= n -> in_u64 n -> 1 <= w <= n -> in_u32 w ->
  exists threads : list (thread F),
    partition n w dx = Some threads /\
    length threads = Z.to_nat w /\
    (forall t, 0 <= t < w ->
       exists th, threads !! Z.to_nat t = Some th /\
         th_t th = t /\
         th_start_idx th = t * (n / w) + Z.min t (n mod w) /\
         chunk_len th = if t <? n mod w then n / w + 1 else n / w) /\
    (forall (i j : nat) thi thj k,
       threads !! i = Some thi -> threads !! j = Some thj -> i <> j ->
       in_range thi k -> ~ in_range thj k) /\
    (forall th, head threads = Some th -> th_start_idx th = 0) /\
    (forall (i : nat) thi thj,
       threads !! i = Some thi -> threads !! S i = Some thj ->
       th_end_idx thi = th_start_idx thj) /\
    (forall th, last threads = Some th -> th_end_idx th = n) /\
    concat (indices <$> threads) = seqZ 0 n /\
    (forall thi thj, thi ∈ threads -> thj ∈ threads ->
       Z.abs (chunk_len thi - chunk_len thj) <= 1).
Proof.
  intros Hn Hn64 Hw Hw32.
  exists (range_thread n w dx <$> seqZ 0 w).
  split; [apply partition_spec; (done || lia)|].
  split; [by rewrite length_fmap, length_seqZ|].
  split.
  { intros t Ht. exists (range_thread n w dx t). split_and!; try done.
    - apply lookup_range_threads. rewrite Z2Nat.id by lia. split; [done|lia].
    - unfold chunk_len, range_thread, range_len; cbn [th_start_idx th_end_idx].
      destruct (t <? n mod w); lia. }
  split.
  { intros i j thi thj k [-> Hi]%lookup_range_threads
      [-> Hj]%lookup_range_threads Hij. unfold in_range; cbn.
    destruct (decide (i < j)%nat).
    - pose proof (range_end_le n w (Z.of_nat i) (Z.of_nat j)
                    ltac:(lia) ltac:(lia) ltac:(lia)). lia.
    - pose proof (range_end_le n w (Z.of_nat j) (Z.of_nat i)
                    ltac:(lia) ltac:(lia) ltac:(lia)). lia. }
  split.
  { intros th Hhd. rewrite head_lookup in Hhd.
    apply lookup_range_threads in Hhd as [-> _]. cbn.
    apply range_start_0. lia. }
  split.
  { intros i thi thj [-> _]%lookup_range_threads [-> _]%lookup_range_threads.
    cbn. rewrite Nat2Z.inj_succ, <- Z.add_1_r.
    rewrite range_start_succ by lia. done. }
  split.
  { intros th Hl. rewrite last_lookup in Hl.
    rewrite length_fmap, length_seqZ in Hl.
    apply lookup_range_threads in Hl as [-> _]. cbn.
    rewrite <- range_start_succ by lia.
    replace (Z.of_nat (Nat.pred (Z.to_nat w)) + 1) with w by lia.
    apply range_start_full. lia. }
  split; [apply concat_indices; lia|].
  intros thi thj (ti & -> & _)%elem_of_range_threads
    (tj & -> & _)%elem_of_range_threads.
  unfold chunk_len, range_thread, range_len; cbn [th_start_idx th_end_idx].
  destruct (ti <? n mod w), (tj <? n mod w); lia.
Qed.

Lemma partition_balanced_cover_witness :
  exists threads : list (thread float),
    partition 10 3 0.25%float = Some threads /\ length threads = 3%nat.
Proof.
  destruct (partition_balanced_cover 10 3 0.25%float)
    as (threads & Hp & Hlen & _).
  - lia.
  - unfold in_u64, modulus64. lia.
  - lia.
  - unfold in_u32, modulus32. lia.
  - exists threads. split; [exact Hp|exact Hlen].
Defined.

(** C2, as the program behaves: for every N >= 1 and worker counts W1, W2
    between 1 and N, the estimate for a given (N, W) is the same in whatever
    order the threads finish, and the estimates for (N, W1) and (N, W2) are
    identical whenever the addition that accumulates them is associative
    with [0.0] as its neutral element, as it is in exact arithmetic: both
    are then [dx] times the sum of the N terms in ascending order.
    ([double] addition is not associative, and there the estimate does
    depend on W.) *)
Theorem estimate_independent_of_workers_when_associative
    {F : Type} `{DoubleOps F}
    (sched1 sched2 : list (thread F) -> list (thread F)) (n w1 w2 : Z) :
  fair sched1 -> fair sched2 ->
  1 <= n -> in_u64 n ->
  1 <= w1 <= n -> in_u32 w1 -> 1 <= w2 <= n -> in_u32 w2 ->
  compute_with sched1 n w1 = compute_with sched2 n w1 /\
  ((forall x y z : F, d_add x (d_add y z) = d_add (d_add x y) z) ->
   (forall x : F, d_add d_zero x = x) ->
   (forall x : F, d_add x d_zero = x) ->
   exists c1 c2,
     compute_with sched1 n w1 = Some c1 /\
     compute_with sched2 n w2 = Some c2 /\
     c_pi_approx c1 = c_pi_approx c2 /\
     c_pi_approx c1
     = d_mul (range_sum 0 n (d_div d_one (d_of_u64 n)))
         (d_div d_one (d_of_u64 n))).
Proof.
  intros Hf1 Hf2 Hn Hn64 Hw1 Hw1' Hw2 Hw2'. split.
  { by rewrite !compute_with_spec by (done || lia). }
  intros Hassoc Hzl Hzr.
  eexists _, _. split; [apply compute_with_spec; (done || lia)|].
  split; [apply compute_with_spec; (done || lia)|].
  cbn [c_pi_approx].
  rewrite !total_sum_sequential by (done || lia). done.
Qed.

Lemma estimate_independent_of_workers_when_associative_witness :
  compute_with (F:=Qc) reverse 5 3 = compute (F:=Qc) 5 3 /\
  exists c1 c2,
    compute_with (F:=Qc) reverse 5 3 = Some c1 /\
    compute (F:=Qc) 5 1 = Some c2 /\
    c_pi_approx c1 = c_pi_approx c2.
Proof.
  destruct (estimate_independent_of_workers_when_associative
              (F:=Qc) reverse id 5 3 1) as (Hsched & Hworkers).
  - intros threads. apply reverse_Permutation.
  - intros threads. reflexivity.
  - lia.
  - unfold in_u64, modulus64. lia.
  - lia.
  - unfold in_u32, modulus32. lia.
  - lia.
  - unfold in_u32, modulus32. lia.
  - split; [exact Hsched|].
    destruct (Hworkers Qcplus_assoc Qcplus_0_l Qcplus_0_r)
      as (c1 & c2 & H1 & H2 & Heq & _).
    exists c1, c2. split; [exact H1|]. split; [exact H2|exact Heq].
Defined.

(** C2 as stated fails on [double]: for N = 5 the run with one worker and
    the run with three workers print estimates that differ in the last
    bits. *)
Lemma estimate_depends_on_workers :
  exists pi1 pi3 c1 c3,
    main (F:=float) 8 ["pi"; "5"; "1"]%string
    = Some (Run 0 [CoutN 5; CoutThreads 1; CoutPi pi1] (Some c1)) /\
    main (F:=float) 8 ["pi"; "5"; "3"]%string
    = Some (Run 0 [CoutN 5; CoutThreads 3; CoutPi pi3] (Some c3)) /\
    pi1 <> pi3.
Proof.
  eexists _, _, _, _. split; [vm_compute; reflexivity|].
  split; [vm_compute; reflexivity|].
  intros Heq. apply (f_equal Prim2SF) in Heq. vm_compute in Heq.
  discriminate Heq.
Qed.

(** C3: for every range [start, end) and every [dx], the thread-local
    computation returns, and what it returns is the sum of the terms
    [4 / (1 + ((i + 0.5) * dx)^2)] accumulated from [0.0] by [double]
    additions in ascending order [i = start, ..., end - 1].  It is a function
    of [(start, end, dx)] alone: neither the task index nor the contents of
    the shared vector enter it, and its one effect is the write of that value
    to the thread's slot. *)
Theorem local_sum_ascending {F : Type} `{DoubleOps F}
    (t start_idx end_idx : Z) (dx : F) (partial_sums : list F) :
  in_u64 start_idx -> in_u64 end_idx -> 0 <= t ->
  let th := Thread t start_idx end_idx dx in
  local_sum_of th
  = Some (fold_left
            (fun local_sum i =>
               let x := d_mul (d_add (d_of_u64 i) d_half) dx in
               d_add local_sum (d_div d_four (d_add d_one (d_mul x x))))
            (seqZ start_idx (end_idx - start_idx)) d_zero) /\
  thread_body partial_sums th
  = Some (<[Z.to_nat t := range_sum start_idx end_idx dx]> partial_sums).
Proof.
  intros Hs He Ht th.
  assert (well_formed th) as Hwf by (unfold well_formed, in_u64 in *; cbn; lia).
  split.
  - by rewrite local_sum_of_spec.
  - by rewrite thread_body_spec.
Qed.

Lemma local_sum_ascending_witness :
  local_sum_of (Thread 1 2 4 0.25%float)
  = Some (0 + 4 / (1 + (2.5 * 0.25) * (2.5 * 0.25))
            + 4 / (1 + (3.5 * 0.25) * (3.5 * 0.25)))%float.
Proof.
  refine (eq_trans (proj1 (local_sum_ascending 1 2 4 0.25%float [] _ _ _)) _).
  - unfold in_u64, modulus64. lia.
  - unfold in_u64, modulus64. lia.
  - lia.
  - vm_compute. reflexivity.
Defined.

(** C4: once all W threads have finished (in whatever order), the
    combination adds the W partial results to [0.0] from left to right in the
    index order 0, 1, ..., W-1, slot [t] holding the sum of range [t], and
    multiplies the total by [dx = 1.0 / N]. *)
Theorem combination_in_index_order {F : Type} `{DoubleOps F}
    (sched : list (thread F) -> list (thread F)) (n w : Z) :
  fair sched -> 1 <= n -> in_u64 n -> 1 <= w <= n -> in_u32 w ->
  exists c,
    compute_with sched n w = Some c /\
    c_dx c = d_div d_one (d_of_u64 n) /\
    length (c_partial_sums c) = Z.to_nat w /\
    (forall t, 0 <= t < w ->
       c_partial_sums c !! Z.to_nat t
       = Some (range_sum (range_start n w t)
                 (range_start n w t + range_len n w t) (c_dx c))) /\
    c_pi_approx c
    = d_mul (fold_left
               (fun total_sum t =>
                  d_add total_sum (default d_zero (c_partial_sums c !! t)))
               (seq 0 (Z.to_nat w)) d_zero)
        (c_dx c).
Proof.
  intros Hfair Hn Hn64 Hw Hw32. eexists. split.
  { apply compute_with_spec; (done || lia). }
  cbn [c_dx c_partial_sums c_pi_approx].
  set (dx := d_div d_one (d_of_u64 n)).
  set (threads := range_thread n w dx <$> seqZ 0 w).
  assert (length (thread_sum <$> threads) = Z.to_nat w) as Hlen.
  { unfold threads. by rewrite !length_fmap, length_seqZ. }
  split_and!; [done|done| |].
  - intros t Ht. rewrite list_lookup_fmap. unfold threads.
    rewrite (proj2 (lookup_range_threads n w dx (Z.to_nat t)
                      (range_thread n w dx t))); [done|].
    rewrite Z2Nat.id by lia. split; [done|lia].
  - f_equal. rewrite <- Hlen. apply fold_left_by_index.
Qed.

Lemma combination_in_index_order_witness :
  exists c, compute (F:=float) 5 3 = Some c /\
    c_dx c = (1 / u64_to_double 5)%float /\
    length (c_partial_sums c) = 3%nat.
Proof.
  destruct (combination_in_index_order (F:=float) id 5 3)
    as (c & Hc & Hdx & Hlen & _).
  - intros threads. reflexivity.
  - lia.
  - unfold in_u64, modulus64. lia.
  - lia.
  - unfold in_u32, modulus32. lia.
  - exists c. split; [exact Hc|]. split; [exact Hdx|exact Hlen].
Defined.




(** The two scenarios the specification lists, run on the model. *)
Example invalid_n_abc :
  main (F:=float) 8 ["pi"; "abc"]%string
  = Some (Run 1 [Cerr ("Niepoprawna wartosc n: abc" +:+ newline)%string] None).
Proof. vm_compute. reflexivity. Qed.

Example invalid_workers_0 :
  main (F:=float) 8 ["pi"; "1000"; "0"]%string
  = Some (Run 1 [Cerr ("Niepoprawna liczba watkow: 0" +:+ newline)%string]
            None).
Proof. vm_compute. reflexivity. Qed.

(** An argument that starts with a number is read up to the first character
    that is not a digit and is accepted. *)
Example numeric_prefix_accepted :
  validate 8 ["pi"; "12abc"]%string = inr (12, 8).
Proof. vm_compute. reflexivity. Qed.

(** C6: the worker count used for the partition and for the creation of the
    threads is [min(workers, N)], where [workers] is the requested count (or
    the detected default): a count above N is clamped down to N, any other
    count is used unchanged. *)
Theorem effective_workers_min {F : Type} `{DoubleOps F}
    (sched : list (thread F) -> list (thread F)) (hw : Z)
    (argv : list string) (n workers : Z) :
  fair sched -> in_u32 hw -> validate hw argv = inr (n, workers) ->
  clamp_threads workers n = Z.min workers n /\
  exists c,
    main_with sched hw argv
    = Some (Run 0 [CoutN n; CoutThreads (Z.min workers n);
                   CoutPi (c_pi_approx c)] (Some c)) /\
    partition n (Z.min workers n) (c_dx c) = Some (c_threads c) /\
    length (c_threads c) = Z.to_nat (Z.min workers n) /\
    length (c_partial_sums c) = Z.to_nat (Z.min workers n).
Proof.
  intros Hfair Hhw Hv.
  pose proof (validate_range _ _ _ _ Hhw Hv) as ((Hn & Hn64) & (Hw & Hw32)).
  split; [apply clamp_threads_min; (done || lia)|].
  eexists. split; [by apply main_with_valid|].
  cbn [c_dx c_threads c_partial_sums].
  rewrite partition_spec by (unfold in_u32 in *; (done || lia)).
  by rewrite !length_fmap, length_seqZ.
Qed.

Lemma effective_workers_min_witness :
  clamp_threads 7 5 = Z.min 7 5 /\
  exists c,
    main (F:=float) 8 ["pi"; "5"; "7"]%string
    = Some (Run 0 [CoutN 5; CoutThreads 5; CoutPi (c_pi_approx c)] (Some c)).
Proof.
  destruct (effective_workers_min (F:=float) id 8 ["pi"; "5"; "7"]%string 5 7)
    as (Hclamp & c & Hmain & _).
  - intros threads. reflexivity.
  - unfold in_u32, modulus32. lia.
  - vm_compute. reflexivity.
  - split; [exact Hclamp|]. exists c. exact Hmain.
Defined.

(** C7, as the program behaves: for N = 1 the worker count is clamped to 1,
    [dx] is 1, the one midpoint is 0.5, and the estimate is the integrand at
    that midpoint times [dx], that is [4 / (1 + 0.5^2) = 4 / 1.25]. *)
Theorem single_rectangle_estimate
    (sched : list (thread float) -> list (thread float)) (hw : Z)
    (argv : list string) (workers : Z) :
  fair sched -> in_u32 hw -> validate hw argv = inr (1, workers) ->
  exists c,
    main_with sched hw argv
    = Some (Run 0 [CoutN 1; CoutThreads 1; CoutPi (c_pi_approx c)] (Some c)) /\
    length (c_threads c) = 1%nat /\
    c_dx c = 1%float /\
    midpoint 0 (c_dx c) = 0.5%float /\
    c_pi_approx c = (integrand 0 (c_dx c) * c_dx c)%float /\
    c_pi_approx c = (4 / (1 + 0.5 * 0.5))%float /\
    c_pi_approx c = (4 / 1.25)%float.
Proof.
  intros Hfair Hhw Hv.
  pose proof (validate_range _ _ _ _ Hhw Hv) as (_ & (Hw & _)).
  eexists. split.
  { rewrite (main_with_valid sched hw argv 1 workers) by done.
    replace (Z.min workers 1) with 1 by lia. reflexivity. }
  cbn [c_threads c_dx c_pi_approx].
  split_and!; vm_compute; reflexivity.
Qed.

Lemma single_rectangle_estimate_witness :
  exists c,
    main (F:=float) 8 ["pi"; "1"]%string
    = Some (Run 0 [CoutN 1; CoutThreads 1; CoutPi (c_pi_approx c)] (Some c)) /\
    c_pi_approx c = (4 / 1.25)%float.
Proof.
  destruct (single_rectangle_estimate id 8 ["pi"; "1"]%string 8)
    as (c & Hmain & _ & _ & _ & _ & _ & Hpi).
  - intros threads. reflexivity.
  - unfold in_u32, modulus32. lia.
  - vm_compute. reflexivity.
  - exists c. split; [exact Hmain|exact Hpi].
Defined.

(** C7 as stated fails: the estimate for N = 1 is not the value of the
    formula [4 / (1 + 0.25^2)] the specification writes. *)
Lemma single_rectangle_not_quarter_squared :
  exists pi1 c,
    main (F:=float) 8 ["pi"; "1"]%string
    = Some (Run 0 [CoutN 1; CoutThreads 1; CoutPi pi1] (Some c)) /\
    pi1 <> (4 / (1 + 0.25 * 0.25))%float.
Proof.
  eexists _, _. split; [vm_compute; reflexivity|].
  intros Heq. apply (f_equal Prim2SF) in Heq. vm_compute in Heq.
  discriminate Heq.
Qed.



(** C9: in a run with valid inputs (1 <= N < 2^64) every evaluation of the
    integrand, at every index 0 <= i < N, has a denominator [1 + x*x] (with
    [x = (i + 0.5) * dx] and [dx = 1.0 / N], all in [double]) that compares
    at least 1.0; it is therefore neither a NaN nor a zero, and the quotient
    [4.0 / (1.0 + x*x)] is not a NaN. *)
Theorem denominator_at_least_one (n i : Z) :
  1 <= n -> in_u64 n -> 0 <= i < n ->
  let dx : float := d_div d_one (d_of_u64 n) in
  (1 <=? denominator i dx)%float = true /\
  is_nan (denominator i dx) = false /\
  is_zero (denominator i dx) = false /\
  is_nan (integrand i dx) = false.
Proof.
  intros Hn Hn64 Hi dx.
  assert ((1 <=? denominator i dx)%float = true) as Hle.
  { unfold dx, denominator, midpoint.
    cbn [d_div d_one d_of_u64 d_add d_mul d_half Binary64].
    rewrite FloatAxioms.leb_spec, FloatAxioms.add_spec. unfold SF64add.
    change (Prim2SF 1) with (S754_finite false 4503599627370496 (-52)).
    apply SFadd_one_ge_one. rewrite FloatAxioms.mul_spec. apply SFmul_self_signed.
    rewrite FloatAxioms.mul_spec.
    destruct (midpoint_numerator_finite i) as (m & e & ->).
    { unfold in_u64 in *. lia. }
    apply SFmul_finite_not_nan. rewrite FloatAxioms.div_spec.
    change (Prim2SF 1) with (S754_finite false 4503599627370496 (-52)).
    apply SFdiv_finite_not_nan. eexists _, _. by apply u64_to_double_range. }
  split; [exact Hle|].
  rewrite FloatAxioms.leb_spec in Hle.
  change (Prim2SF 1) with (S754_finite false 4503599627370496 (-52)) in Hle.
  apply SFleb_one_cases in Hle.
  assert (Prim2SF (integrand i dx) <> S754_nan) as Hq.
  { unfold integrand. cbn [d_div d_four Binary64]. rewrite FloatAxioms.div_spec.
    change (Prim2SF 4) with (S754_finite false 4503599627370496 (-50)).
    destruct Hle as [->|(m & e & ->)]; [done|].
    eapply signed_not_nan, SFdiv_finite_signed. }
  split_and!.
  - apply is_nan_false. by destruct Hle as [->|(m & e & ->)].
  - unfold is_zero. rewrite FloatAxioms.eqb_spec.
    change (Prim2SF 0) with (S754_zero false).
    by destruct Hle as [->|(m & e & ->)].
  - by apply is_nan_false.
Qed.

Lemma denominator_at_least_one_witness :
  (1 <=? denominator 3 (1 / u64_to_double 5))%float = true.
Proof.
  refine (proj1 (denominator_at_least_one 5 3 _ _ _)).
  - lia.
  - unfold in_u64, modulus64. lia.
  - lia.
Defined.




(** * Further properties

    Properties of the parts of [main] the claims above leave out, and of its
    arithmetic in [double]. *)

(** ** More on binary64 arithmetic *)

Lemma Zdigits2_mul a b :
  0 < a -> 0 < b ->
  Zdigits2 a + Zdigits2 b - 1 <= Zdigits2 (a * b) <= Zdigits2 a + Zdigits2 b.
Proof.
  intros Ha Hb.
  destruct (Zdigits2_bounds a Ha) as (Hda & Hloa & Hhia).
  destruct (Zdigits2_bounds b Hb) as (Hdb & Hlob & Hhib).
  assert (0 < 2 ^ (Zdigits2 a - 1)) by (apply Z.pow_pos_nonneg; lia).
  assert (0 < 2 ^ (Zdigits2 b - 1)) by (apply Z.pow_pos_nonneg; lia).
  split.
  - apply Zdigits2_ge; [nia|].
    replace (Zdigits2 a + Zdigits2 b - 1 - 1)
      with ((Zdigits2 a - 1) + (Zdigits2 b - 1)) by lia.
    rewrite Z.pow_add_r by lia. nia.
  - apply Zdigits2_le; [nia|]. rewrite Z.pow_add_r by lia. nia.
Qed.

(** The product of two positive finite numbers. *)
Lemma SFmul_finite lo1 hi1 lo2 hi2 x y :
  pos_finite lo1 hi1 x -> pos_finite lo2 hi2 y ->
  -1074 < lo1 + lo2 - 1 -> hi1 + hi2 <= 970 ->
  pos_finite (lo1 + lo2 - 1) (hi1 + hi2 + 1) (SFmul prec emax x y).
Proof.
  intros (mx & ex & -> & Hx) (my & ey & -> & Hy) Hlo Hhi.
  cbn [SFmul xorb]. unfold magnitude in *.
  pose proof (Zdigits2_mul (Zpos mx) (Zpos my) ltac:(lia) ltac:(lia)) as Hd.
  change (Zpos mx * Zpos my) with (Zpos (mx * my)) in Hd. cbn [Zdigits2] in Hd.
  destruct (binary_round_aux_pos false (mx * my) (ex + ey) loc_Exact)
    as (m2 & e2 & -> & Hm & Hp & _); [lia|].
  destruct (Z.leb_spec e2 971); [|lia].
  exists m2, e2. split; [done|]. unfold magnitude. lia.
Qed.

(** The quotient of two positive finite numbers, away from underflow. *)
Lemma SFdiv_finite lo1 hi1 lo2 hi2 x y :
  pos_finite lo1 hi1 x -> pos_finite lo2 hi2 y ->
  -1021 <= lo1 - hi2 -> hi1 - lo2 <= 968 ->
  pos_finite (lo1 - hi2) (hi1 - lo2 + 2) (SFdiv prec emax x y).
Proof.
  intros (mx & ex & -> & Hx) (my & ey & -> & Hy) Hlo Hhi.
  cbn [SFdiv xorb]. unfold SFdiv_core_binary, magnitude in *.
  cbn [Zdigits2]. rewrite fexp64.
  set (d1 := Zpos (digits2_pos mx)) in *. set (d2 := Zpos (digits2_pos my)) in *.
  set (e' := Z.min (Z.max (d1 + ex - (d2 + ey) - 53) (-1074)) (ex - ey)).
  set (s := ex - ey - e').
  assert (d2 - d1 + 53 <= s) as Hs by (unfold s, e'; lia).
  pose proof (digits2_pos_bounds mx) as Hbx. fold d1 in Hbx.
  pose proof (digits2_pos_bounds my) as Hby. fold d2 in Hby.
  assert (1 <= d1 /\ 1 <= d2) as [Hd1 Hd2] by (unfold d1, d2; lia).
  set (m' := match s with Z0 => Zpos mx | Zpos _ => Z.shiftl (Zpos mx) s | Zneg _ => 0 end).
  assert (m' = Zpos mx * 2 ^ s) as Hm'.
  { unfold m'. destruct s as [|p|p] eqn:Hsp; [cbn; lia| |lia].
    apply Z.shiftl_mul_pow2. lia. }
  pose proof (Z.div_eucl_eq m' (Zpos my) ltac:(lia)) as Hdiv.
  pose proof (Z.mod_pos_bound m' (Zpos my) ltac:(lia)) as Hrem.
  unfold Z.modulo in Hrem.
  destruct (Z.div_eucl m' (Zpos my)) as [q r].
  assert (0 < 2 ^ s) by (apply Z.pow_pos_nonneg; lia).
  assert (2 ^ (d1 + s - d2 - 1) <= q < 2 ^ (d1 + s - d2 + 1)) as Hq.
  { assert (2 ^ (d1 - 1) * 2 ^ s = 2 ^ (d1 + s - d2 - 1) * 2 ^ d2) as E1.
    { rewrite <- !Z.pow_add_r by lia. f_equal. lia. }
    assert (2 ^ d1 * 2 ^ s = 2 ^ (d1 + s - d2 + 1) * 2 ^ (d2 - 1)) as E2.
    { rewrite <- !Z.pow_add_r by lia. f_equal. lia. }
    assert (0 < 2 ^ (d1 + s - d2 - 1)) by (apply Z.pow_pos_nonneg; lia).
    assert (0 < 2 ^ (d1 + s - d2 + 1)) by (apply Z.pow_pos_nonneg; lia).
    split; nia. }
  assert (0 < 2 ^ (d1 + s - d2 - 1)) by (apply Z.pow_pos_nonneg; lia).
  destruct q as [|p|p]; [lia| |lia].
  assert (d1 + s - d2 <= Zpos (digits2_pos p) <= d1 + s - d2 + 1) as Hdq.
  { change (Zpos (digits2_pos p)) with (Zdigits2 (Zpos p)). split.
    - apply Zdigits2_ge; [lia|]. lia.
    - apply Zdigits2_le; lia. }
  destruct (binary_round_aux_pos false p e'
              (new_location (Zpos my) r)) as (m2 & e2 & -> & Hm & Hp & _).
  { unfold s in *. lia. }
  destruct (Z.leb_spec e2 971); [|unfold s in *; lia].
  exists m2, e2. split; [done|]. unfold magnitude, s in *. lia.
Qed.

Lemma pos_finite_signed lo hi x : pos_finite lo hi x -> signed false x.
Proof. by intros (m & e & -> & _). Qed.

Lemma pos_finite_weaken lo hi lo' hi' x :
  pos_finite lo hi x -> lo' <= lo -> hi <= hi' -> pos_finite lo' hi' x.
Proof.
  intros (m & e & -> & Hm) Hlo Hhi. exists m, e. split; [done|lia].
Qed.

(** A positive finite number, read on the [float] itself. *)
Lemma pos_finite_float lo hi f :
  pos_finite lo hi (Prim2SF f) ->
  (0 <? f)%float = true /\ is_finite f = true.
Proof.
  intros (m & e & Hf & _). split.
  - rewrite FloatAxioms.ltb_spec, Hf. reflexivity.
  - unfold is_finite. rewrite is_nan_false by (by rewrite Hf).
    unfold is_infinity. rewrite FloatAxioms.eqb_spec, abs_spec, Hf.
    reflexivity.
Qed.

(** Adding a non-negative number to [0.0] returns it unchanged. *)
Lemma float_zero_add y :
  signed false (Prim2SF y) -> (0 + y)%float = y.
Proof.
  intros Hy. apply Prim2SF_inj. rewrite FloatAxioms.add_spec.
  change (Prim2SF 0) with (S754_zero false). unfold SF64add.
  destruct (Prim2SF y) as [s|s| |s m e]; cbn in Hy; subst; done.
Qed.

(** The conversion of a non-zero [uint64_t] is a positive finite number. *)
Lemma u64_to_double_pos z :
  1 <= z -> in_u64 z -> pos_finite 1 65 (Prim2SF (u64_to_double z)).
Proof.
  intros Hz1 Hz. destruct (u64_to_double_spec z Hz) as [-> [[s Hzero]|Hfin]];
    [|done].
  destruct z as [|p|p]; [lia| |lia]. cbn [binary_normalize] in Hzero.
  destruct (binary_round_cases false p 0) as (m2 & e2 & Hr & _).
  { unfold magnitude. lia. }
  rewrite Hr in Hzero. by destruct (_ <=? _).
Qed.

(** [dx = 1.0 / static_cast<double>(n)] is a positive finite number. *)
Lemma dx_range n :
  1 <= n -> in_u64 n ->
  pos_finite (-64) 2 (Prim2SF (1 / u64_to_double n)%float).
Proof.
  intros Hn Hn64. rewrite FloatAxioms.div_spec. unfold SF64div.
  assert (pos_finite 1 1 (Prim2SF 1)) as Hone.
  { exists 4503599627370496%positive, (-52). split; [reflexivity|].
    unfold magnitude. cbn. lia. }
  apply (SFdiv_finite _ _ _ _ _ _ Hone (u64_to_double_pos n Hn Hn64)); lia.
Qed.

Lemma midpoint_numerator_range i :
  in_u64 i -> pos_finite 0 67 (Prim2SF (u64_to_double i + 0.5)%float).
Proof.
  intros Hi. rewrite FloatAxioms.add_spec. unfold SF64add.
  assert (pos_finite 0 0 (Prim2SF 0.5)) as Hhalf.
  { exists 4503599627370496%positive, (-53). split; [reflexivity|].
    unfold magnitude. cbn. lia. }
  destruct (u64_to_double_range i Hi) as [[s ->]|Hfin].
  - destruct Hhalf as (m & e & -> & Hm). cbn. exists m, e. split; [done|lia].
  - eapply pos_finite_weaken;
      [apply (SFadd_finite _ _ _ _ _ _ Hfin Hhalf); lia|lia|lia].
Qed.

Lemma binary64_terms (n i : Z) :
  1 <= n -> in_u64 n -> 0 <= i < n ->
  let dx : float := d_div d_one (d_of_u64 n) in
  pos_finite (-65) 70 (Prim2SF (midpoint i dx)) /\
  pos_finite 1 143 (Prim2SF (denominator i dx)) /\
  pos_finite (-140) 4 (Prim2SF (integrand i dx)).
Proof.
  intros Hn Hn64 Hi dx.
  assert (pos_finite (-65) 70 (Prim2SF (midpoint i dx))) as Hx.
  { unfold midpoint, dx. cbn [d_mul d_add d_div d_one d_half d_of_u64 Binary64].
    rewrite FloatAxioms.mul_spec. unfold SF64mul.
    eapply pos_finite_weaken;
      [apply (SFmul_finite _ _ _ _ _ _
                (midpoint_numerator_range i ltac:(unfold in_u64 in *; lia))
                (dx_range n Hn Hn64)); lia|lia|lia]. }
  assert (pos_finite 1 143 (Prim2SF (denominator i dx))) as Hden.
  { unfold denominator. fold (midpoint i dx).
    cbn [d_mul d_add d_one Binary64].
    rewrite FloatAxioms.add_spec, FloatAxioms.mul_spec.
    unfold SF64add, SF64mul.
    assert (pos_finite 1 1 (Prim2SF 1)) as Hone.
    { exists 4503599627370496%positive, (-52). split; [reflexivity|].
      unfold magnitude. cbn. lia. }
    pose proof (SFmul_finite _ _ _ _ _ _ Hx Hx ltac:(lia) ltac:(lia)) as Hxx.
    eapply pos_finite_weaken;
      [apply (SFadd_finite _ _ _ _ _ _ Hone Hxx); lia|lia|lia]. }
  split; [done|]. split; [done|].
  unfold integrand. cbn [d_div d_four Binary64].
  rewrite FloatAxioms.div_spec. unfold SF64div.
  assert (pos_finite 3 3 (Prim2SF 4)) as Hfour.
  { exists 4503599627370496%positive, (-50). split; [reflexivity|].
    unfold magnitude. cbn. lia. }
  eapply pos_finite_weaken;
    [apply (SFdiv_finite _ _ _ _ _ _ Hfour Hden); lia|lia|lia].
Qed.

Lemma pos_finite_positive_finite lo hi f :
  pos_finite lo hi (Prim2SF f) -> positive_finite f = true.
Proof.
  intros [H1 H2]%pos_finite_float. unfold positive_finite.
  by rewrite H1, H2.
Qed.

Lemma pos_finite_at_least lo hi x : pos_finite lo hi x -> at_least lo x.
Proof. intros (m & e & -> & Hm). right. exists m, e. split; [done|lia]. Qed.

Lemma at_least_signed lo x : at_least lo x -> signed false x.
Proof. by intros [->|(m & e & -> & _)]. Qed.

Lemma at_least_float lo f : at_least lo (Prim2SF f) -> (0 <? f)%float = true.
Proof.
  intros Hf. rewrite FloatAxioms.ltb_spec.
  change (Prim2SF 0) with (S754_zero false).
  by destruct Hf as [->|(m & e & -> & _)].
Qed.

Lemma SFadd_finite_at_least lo mx ex my ey :
  -1074 < lo -> lo <= Z.max (magnitude mx ex) (magnitude my ey) ->
  at_least lo
    (SFadd prec emax (S754_finite false mx ex) (S754_finite false my ey)).
Proof.
  intros Hlo Hmag.
  destruct (SFadd_finite_cases mx ex my ey ltac:(lia))
    as (m2 & e2 & -> & Hm & _).
  destruct (_ <=? _); [|by left]. right. exists m2, e2. split; [done|lia].
Qed.

Lemma SFadd_at_least_l lo x y :
  -1074 < lo -> at_least lo x -> signed false y ->
  at_least lo (SFadd prec emax x y).
Proof.
  intros Hlo [->|(mx & ex & -> & Hx)] Hy;
    destruct y as [sy|sy| |sy my ey]; cbn in Hy; subst; try done;
    try (by left); try (right; by exists mx, ex).
  apply SFadd_finite_at_least; lia.
Qed.

Lemma SFadd_at_least_r lo x y :
  -1074 < lo -> signed false x -> at_least lo y ->
  at_least lo (SFadd prec emax x y).
Proof.
  intros Hlo Hx [->|(my & ey & -> & Hy)];
    destruct x as [sx|sx| |sx mx ex]; cbn in Hx; subst; try done;
    try (by left); try (right; by exists my, ey).
  apply SFadd_finite_at_least; lia.
Qed.

Lemma SFmul_at_least lo1 lo2 hi2 x y :
  -1074 < lo1 + lo2 - 1 -> at_least lo1 x -> pos_finite lo2 hi2 y ->
  at_least (lo1 + lo2 - 1) (SFmul prec emax x y).
Proof.
  intros Hlo [->|(mx & ex & -> & Hx)] (my & ey & -> & Hy); [by left|].
  cbn [SFmul xorb]. unfold magnitude in *.
  pose proof (Zdigits2_mul (Zpos mx) (Zpos my) ltac:(lia) ltac:(lia)) as Hd.
  change (Zpos mx * Zpos my) with (Zpos (mx * my)) in Hd. cbn [Zdigits2] in Hd.
  destruct (binary_round_aux_pos false (mx * my) (ex + ey) loc_Exact)
    as (m2 & e2 & -> & Hm & _); [lia|].
  destruct (_ <=? _); [|by left]. right. exists m2, e2.
  split; [done|]. unfold magnitude. lia.
Qed.

(** A sum of at least one positive finite term, started from a number that
    is not negative, is positive. *)
Lemma fold_add_at_least {A} lo (term : A -> float) (l : list A) (acc : float) :
  -1074 < lo ->
  (forall i, i ∈ l -> at_least lo (Prim2SF (term i))) ->
  (at_least lo (Prim2SF acc) \/ (signed false (Prim2SF acc) /\ l <> [])) ->
  at_least lo (Prim2SF (fold_left (fun a i => (a + term i)%float) l acc)).
Proof.
  intros Hlo. revert acc. induction l as [|i l IH]; intros acc Hterm Hacc.
  - by destruct Hacc as [?|[_ ?]].
  - cbn [fold_left]. apply IH.
    + intros j Hj. apply Hterm. by right.
    + left. rewrite FloatAxioms.add_spec.
      assert (at_least lo (Prim2SF (term i))) as Hi by (apply Hterm; by left).
      destruct Hacc as [Hacc|[Hacc _]].
      * apply SFadd_at_least_l; [done|done|]. by eapply at_least_signed.
      * by apply SFadd_at_least_r.
Qed.

Lemma range_len_pos n w t : 0 < w <= n -> 0 < range_len n w t.
Proof.
  unfold range_len. intros Hw.
  assert (1 <= n / w) by (apply Z.div_le_lower_bound; lia).
  destruct (t <? n mod w); lia.
Qed.

(** The sum over a non-empty range inside [0, n) is positive. *)
Lemma range_sum_at_least (n start_idx end_idx : Z) :
  1 <= n -> in_u64 n -> 0 <= start_idx < end_idx -> end_idx <= n ->
  let dx : float := d_div d_one (d_of_u64 n) in
  at_least (-140) (Prim2SF (range_sum start_idx end_idx dx)).
Proof.
  intros Hn Hn64 Hs He dx.
  change (range_sum start_idx end_idx dx)
    with (fold_left (fun a i => (a + integrand i dx)%float)
            (seqZ start_idx (end_idx - start_idx)) 0%float).
  apply fold_add_at_least; [lia| |].
  - intros i Hi%elem_of_seqZ.
    destruct (binary64_terms n i Hn Hn64 ltac:(lia)) as (_ & _ & Hterm).
    by eapply pos_finite_at_least.
  - right. split; [done|].
    rewrite (seqZ_cons start_idx) by lia. done.
Qed.

Lemma thread_sums_at_least (n w : Z) (v : float) :
  1 <= n -> in_u64 n -> 1 <= w <= n ->
  let dx : float := d_div d_one (d_of_u64 n) in
  v ∈ thread_sum <$> (range_thread n w dx <$> seqZ 0 w) ->
  at_least (-140) (Prim2SF v).
Proof.
  intros Hn Hn64 Hw dx Hv.
  apply list_elem_of_fmap in Hv as (th & -> & Hth).
  apply elem_of_range_threads in Hth as (t & -> & Ht).
  unfold thread_sum, range_thread. cbn [th_start_idx th_end_idx th_dx].
  pose proof (range_start_nonneg n w t ltac:(lia) ltac:(lia) ltac:(lia)).
  pose proof (range_len_pos n w t ltac:(lia)).
  pose proof (range_end_bound n w t ltac:(lia) ltac:(lia) Ht).
  apply range_sum_at_least; (done || lia).
Qed.

Lemma fold_left_fmap_add (term : Z -> float) (l : list Z) (acc : float) :
  fold_left PrimFloat.add (term <$> l) acc
  = fold_left (fun a i => (a + term i)%float) l acc.
Proof.
  revert acc. induction l as [|i l IH]; intros acc; [done|]. cbn. apply IH.
Qed.

(** ** Validation and exit status (lines 13-30) *)

Section MoreOfMain.

Context {F : Type} `{DoubleOps F}.


(** X2: the message names the first argument that is turned away and echoes
    it: a bad first argument is reported as the value of n, whatever the
    second one is; a bad second argument is reported as the number of
    threads only when the first one is good. *)
Theorem error_names_first_bad_argument
    (sched : list (thread F) -> list (thread F)) (hw : Z)
    (argv : list string) (a1 : string) :
  argv !! 1%nat = Some a1 ->
  (rejected modulus64 a1 ->
   main_with sched hw argv
   = Some (Run 1 [Cerr ("Niepoprawna wartosc n: " +:+ a1 +:+ newline)%string]
             None)) /\
  (~ rejected modulus64 a1 ->
   forall a2, argv !! 2%nat = Some a2 -> rejected modulus32 a2 ->
   main_with sched hw argv
   = Some (Run 1
             [Cerr ("Niepoprawna liczba watkow: " +:+ a2 +:+ newline)%string]
             None)).
Proof.
  intros H1. unfold main_with. rewrite validate_cases, H1. split.
  - intros Hr%fails_or_zero_rejected; [|done]. by rewrite Hr.
  - intros Hok a2 H2 Hr%fails_or_zero_rejected; [|done].
    destruct (fails_or_zero modulus64 a1) eqn:Hb1.
    + exfalso. apply Hok. by apply fails_or_zero_rejected.
    + by rewrite H2, Hr.
Qed.

(** X3: arguments after the second one are never read: the run is the same
    with and without them. *)
Theorem extra_arguments_ignored
    (sched : list (thread F) -> list (thread F)) (hw : Z)
    (a0 a1 a2 : string) (rest : list string) :
  main_with sched hw (a0 :: a1 :: a2 :: rest)
  = main_with sched hw [a0; a1; a2].
Proof.
  unfold main_with. by rewrite !validate_cases.
Qed.

(** X4: in every run that passes validation the number of threads is
    between 1 and N, so that the divisions of lines 44-45 have a non-zero
    divisor, and every thread is given a non-empty range inside [0, N): no
    thread is created without work. *)
Theorem every_thread_has_work
    (sched : list (thread F) -> list (thread F)) (hw : Z)
    (argv : list string) (n workers : Z) :
  fair sched -> in_u32 hw -> validate hw argv = inr (n, workers) ->
  exists c,
    main_with sched hw argv
    = Some (Run 0 [CoutN n; CoutThreads (Z.min workers n);
                   CoutPi (c_pi_approx c)] (Some c)) /\
    1 <= Z.of_nat (length (c_threads c)) <= n /\
    (forall th, th ∈ c_threads c ->
       0 <= th_start_idx th < th_end_idx th /\ th_end_idx th <= n).
Proof.
  intros Hfair Hhw Hv.
  pose proof (validate_range _ _ _ _ Hhw Hv) as ((Hn & Hn64) & (Hw & Hw32)).
  eexists. split; [by apply main_with_valid|].
  cbn [c_threads]. split.
  - rewrite length_fmap, length_seqZ. lia.
  - intros th (t & -> & Ht)%elem_of_range_threads.
    cbn [range_thread th_start_idx th_end_idx].
    pose proof (range_start_nonneg n (Z.min workers n) t
                  ltac:(lia) ltac:(lia) ltac:(lia)).
    pose proof (range_len_pos n (Z.min workers n) t ltac:(lia)).
    pose proof (range_end_bound n (Z.min workers n) t
                  ltac:(lia) ltac:(lia) Ht).
    unfold range_thread; cbn. lia.
Qed.

(** X5: a negative worker count whose magnitude fits [unsigned int] passes
    validation as the magnitude negated modulo 2^32 ("-1" is 2^32 - 1).
    The count the program goes on with is the minimum of that and N: the
    partition has that many ranges, and a run that completes has created
    that many threads and as many result slots.  (Whether that many threads
    can be started is up to the system; nothing is said here of a run in
    which they cannot.) *)
Theorem negative_workers_wrap
    (sched : list (thread F) -> list (thread F)) (hw : Z)
    (prog narg arg : string) (n v : Z) :
  fair sched -> in_u32 hw ->
  IStream.extract_unsigned modulus64 narg = Some n -> n <> 0 ->
  IStream.numeral arg = Some (true, v) -> 1 <= v < modulus32 ->
  let workers := modulus32 - v in
  IStream.extract_unsigned modulus32 arg = Some workers /\
  validate hw [prog; narg; arg] = inr (n, workers) /\
  clamp_threads workers n = Z.min workers n /\
  (forall dx : F,
     exists threads,
       partition n (Z.min workers n) dx = Some threads /\
       Z.of_nat (length threads) = Z.min workers n) /\
  (forall r, main_with sched hw [prog; narg; arg] = Some r ->
     exists c,
       r = Run 0 [CoutN n; CoutThreads (Z.min workers n);
                  CoutPi (c_pi_approx c)] (Some c) /\
       partition n (Z.min workers n) (c_dx c) = Some (c_threads c) /\
       Z.of_nat (length (c_threads c)) = Z.min workers n /\
       c_partial_sums c = thread_sum <$> c_threads c /\
       length (c_partial_sums c) = length (c_threads c)).
Proof.
  intros Hfair Hhw Hn Hn0 Hnum Hv workers.
  assert (IStream.extract_unsigned modulus32 arg = Some workers) as Hw.
  { unfold IStream.extract_unsigned. rewrite Hnum.
    destruct (Z.leb_spec modulus32 v); [lia|].
    f_equal. apply Z.mod_small. lia. }
  assert (validate hw [prog; narg; arg] = inr (n, workers)) as Hval.
  { rewrite validate_cases. cbn [lookup list_lookup].
    unfold fails_or_zero. rewrite Hn, Hw. cbn [default from_option id].
    destruct (Z.eqb_spec n 0); [done|].
    destruct (Z.eqb_spec workers 0) as [Hz|_]; [unfold workers in Hz; lia|].
    done. }
  pose proof (validate_range _ _ _ _ Hhw Hval) as ((Hn1 & Hn64) & (Hw1 & Hw32)).
  assert (forall dx : F,
            partition n (Z.min workers n) dx
            = Some (range_thread n (Z.min workers n) dx
                      <$> seqZ 0 (Z.min workers n))) as Hpart.
  { intros dx. apply partition_spec; unfold in_u32 in *; (done || lia). }
  split; [done|]. split; [done|].
  split; [apply clamp_threads_min; (done || lia)|]. split.
  { intros dx. eexists. split; [apply Hpart|].
    rewrite length_fmap, length_seqZ. lia. }
  intros r. rewrite (main_with_valid sched hw _ n workers Hfair Hhw Hval).
  intros [= <-]. eexists (Computation _ _ _ _). split; [reflexivity|].
  cbn [c_dx c_threads c_partial_sums].
  split; [apply Hpart|]. rewrite !length_fmap, length_seqZ.
  split; [lia|]. split; reflexivity.
Qed.

(** X6: when the number of hardware threads is not detected (line 15) and
    no worker count is given, one thread is created and its range is all of
    [0, N); without arguments N is 100000000. *)
Theorem undetected_concurrency_single_thread
    (sched : list (thread F) -> list (thread F))
    (argv : list string) (n workers : Z) :
  fair sched -> argv !! 2%nat = None ->
  validate 0 argv = inr (n, workers) ->
  workers = 1 /\
  (argv !! 1%nat = None -> n = 100000000) /\
  exists c,
    main_with sched 0 argv
    = Some (Run 0 [CoutN n; CoutThreads 1; CoutPi (c_pi_approx c)] (Some c)) /\
    c_threads c = [Thread 0 0 n (c_dx c)] /\
    c_partial_sums c = [range_sum 0 n (c_dx c)].
Proof.
  intros Hfair H2 Hv.
  assert (in_u32 0) as Hhw by (unfold in_u32, modulus32; lia).
  pose proof (validate_range _ _ _ _ Hhw Hv) as ((Hn & Hn64) & _).
  assert (workers = 1 /\ (argv !! 1%nat = None -> n = 100000000)) as [-> Hdef].
  { rewrite validate_cases, H2 in Hv.
    destruct (argv !! 1%nat) as [a1|].
    - destruct (fails_or_zero modulus64 a1); [done|].
      by injection Hv as _ <-.
    - by injection Hv as <- <-. }
  split; [done|]. split; [done|]. eexists. split.
  { rewrite (main_with_valid sched 0 argv n 1) by done.
    replace (Z.min 1 n) with 1 by lia. done. }
  cbn [c_threads c_dx c_partial_sums].
  change (seqZ 0 1) with [0]. cbn [fmap list_fmap].
  unfold thread_sum, range_thread. cbn [th_start_idx th_end_idx th_dx].
  unfold range_start, range_len. rewrite Z.div_1_r, Z.mod_1_r.
  replace (0 * n + Z.min 0 0 + (n + (if 0 <? 0 then 1 else 0))) with n
    by (cbn; lia).
  done.
Qed.

End MoreOfMain.


Lemma error_names_first_bad_argument_witness :
  main (F:=float) 8 ["pi"; "abc"; "0"]%string
  = Some (Run 1 [Cerr ("Niepoprawna wartosc n: abc" +:+ newline)%string] None).
Proof.
  refine (proj1 (error_names_first_bad_argument (F:=float) id 8
                   ["pi"; "abc"; "0"]%string "abc"%string _) _).
  - reflexivity.
  - left. vm_compute. reflexivity.
Defined.

Lemma every_thread_has_work_witness :
  exists c,
    main (F:=float) 8 ["pi"; "5"; "7"]%string
    = Some (Run 0 [CoutN 5; CoutThreads (Z.min 7 5); CoutPi (c_pi_approx c)]
              (Some c)) /\
    1 <= Z.of_nat (length (c_threads c)) <= 5.
Proof.
  destruct (every_thread_has_work (F:=float) id 8 ["pi"; "5"; "7"]%string 5 7)
    as (c & Hmain & Hlen & _).
  - intros threads. reflexivity.
  - unfold in_u32, modulus32. lia.
  - vm_compute. reflexivity.
  - exists c. split; [exact Hmain|exact Hlen].
Defined.

Lemma negative_workers_wrap_witness :
  validate 8 ["pi"; "5"; "-1"]%string = inr (5, modulus32 - 1) /\
  clamp_threads (modulus32 - 1) 5 = Z.min (modulus32 - 1) 5.
Proof.
  destruct (negative_workers_wrap (F:=float) id 8 "pi" "5" "-1" 5 1)
    as (_ & Hval & Hclamp & _).
  - intros threads. reflexivity.
  - unfold in_u32, modulus32. lia.
  - vm_compute. reflexivity.
  - lia.
  - vm_compute. reflexivity.
  - unfold modulus32. lia.
  - split; [exact Hval|exact Hclamp].
Defined.

(** The run of "5 -1" on the model: five threads, one rectangle each. *)
Example negative_workers_run :
  exists c,
    main (F:=float) 8 ["pi"; "5"; "-1"]%string
    = Some (Run 0 [CoutN 5; CoutThreads 5; CoutPi (c_pi_approx c)] (Some c)) /\
    length (c_threads c) = 5%nat.
Proof.
  eexists (Computation _ _ _ _). split.
  - apply (main_with_valid (F:=float) id 8 ["pi"; "5"; "-1"]%string
             5 (modulus32 - 1)).
    + intros threads. reflexivity.
    + unfold in_u32, modulus32. lia.
    + vm_compute. reflexivity.
  - reflexivity.
Qed.

Lemma undetected_concurrency_single_thread_witness :
  exists c,
    main (F:=float) 0 ["pi"; "5"]%string
    = Some (Run 0 [CoutN 5; CoutThreads 1; CoutPi (c_pi_approx c)] (Some c)) /\
    c_threads c = [Thread 0 0 5 (c_dx c)].
Proof.
  destruct (undetected_concurrency_single_thread (F:=float) id
              ["pi"; "5"]%string 5 1) as (_ & _ & c & Hmain & Hth & _).
  - intros threads. reflexivity.
  - reflexivity.
  - vm_compute. reflexivity.
  - exists c. split; [exact Hmain|exact Hth].
Defined.

(** ** The arithmetic in [double] (lines 37, 55-56 and 64-66) *)

(** X7: for every valid N (1 <= N < 2^64) the step [dx = 1.0 / N] is a
    positive finite [double]: the division neither underflows to zero nor
    yields an infinity or a NaN. *)
Theorem dx_positive_finite (n : Z) :
  1 <= n -> in_u64 n ->
  positive_finite (d_div d_one (d_of_u64 n)) = true.
Proof.
  intros Hn Hn64. eapply pos_finite_positive_finite. by apply dx_range.
Qed.

Lemma dx_positive_finite_witness :
  positive_finite (1 / u64_to_double 18446744073709551615)%float = true.
Proof.
  apply (dx_positive_finite 18446744073709551615).
  - lia.
  - unfold in_u64, modulus64. lia.
Defined.

(** X8: at every index 0 <= i < N of a valid run the midpoint
    [x = (i + 0.5) * dx], the denominator [1.0 + x * x] and the term
    [4.0 / (1.0 + x * x)] are positive finite [double]s: no step of lines
    55-56 overflows, underflows to zero or produces a NaN. *)
Theorem integrand_terms_positive_finite (n i : Z) :
  1 <= n -> in_u64 n -> 0 <= i < n ->
  let dx : float := d_div d_one (d_of_u64 n) in
  positive_finite (midpoint i dx) = true /\
  positive_finite (denominator i dx) = true /\
  positive_finite (integrand i dx) = true.
Proof.
  intros Hn Hn64 Hi dx.
  destruct (binary64_terms n i Hn Hn64 Hi) as (Hx & Hden & Hq).
  split_and!; by eapply pos_finite_positive_finite.
Qed.

Lemma integrand_terms_positive_finite_witness :
  positive_finite (integrand 3 (1 / u64_to_double 5)%float) = true.
Proof.
  refine (proj2 (proj2 (integrand_terms_positive_finite 5 3 _ _ _))).
  - lia.
  - unfold in_u64, modulus64. lia.
  - lia.
Defined.

(** X9: for every valid configuration and every order in which the threads
    finish, each partial sum and the estimate compare greater than 0.0; in
    particular none of them is a NaN, a zero or a negative number. *)
Theorem estimate_positive
    (sched : list (thread float) -> list (thread float)) (n w : Z) :
  fair sched -> 1 <= n -> in_u64 n -> 1 <= w <= n -> in_u32 w ->
  exists c,
    compute_with sched n w = Some c /\
    (forall v, v ∈ c_partial_sums c -> (0 <? v)%float = true) /\
    (0 <? c_pi_approx c)%float = true.
Proof.
  intros Hfair Hn Hn64 Hw Hw32. eexists. split.
  { apply compute_with_spec; (done || lia). }
  cbn [c_partial_sums c_pi_approx].
  set (dx := d_div d_one (d_of_u64 n)).
  set (sums := thread_sum <$> (range_thread n w dx <$> seqZ 0 w)).
  assert (forall v, v ∈ sums -> at_least (-140) (Prim2SF v)) as Hsums.
  { intros v Hv. by apply (thread_sums_at_least n w v). }
  split.
  - intros v Hv. eapply at_least_float. by apply Hsums.
  - apply (at_least_float (-205)).
    cbn [d_mul d_add d_zero Binary64]. rewrite FloatAxioms.mul_spec.
    apply (SFmul_at_least (-140) (-64) 2); [lia| |by apply dx_range].
    change (fold_left PrimFloat.add sums 0%float)
      with (fold_left (fun a v => (a + id v)%float) sums 0%float).
    apply fold_add_at_least; [lia|done|].
    right. split; [done|]. intros Hnil.
    apply (f_equal length) in Hnil. unfold sums in Hnil.
    rewrite !length_fmap, length_seqZ in Hnil. cbn in Hnil. lia.
Qed.

Lemma estimate_positive_witness :
  exists c,
    compute (F:=float) 5 3 = Some c /\ (0 <? c_pi_approx c)%float = true.
Proof.
  destruct (estimate_positive id 5 3) as (c & Hc & _ & Hpi).
  - intros threads. reflexivity.
  - lia.
  - unfold in_u64, modulus64. lia.
  - lia.
  - unfold in_u32, modulus32. lia.
  - exists c. split; [exact Hc|exact Hpi].
Defined.

(** X10: with one rectangle per worker (W = N, N an [unsigned int]) every
    partial sum is the single term of its index, and the estimate is
    bit for bit the estimate of the run with one worker: both are [dx] times
    the sum of the N terms added in ascending order. *)
Theorem one_rectangle_per_worker_matches_single_worker
    (sched1 schedN : list (thread float) -> list (thread float)) (n : Z) :
  fair sched1 -> fair schedN -> 1 <= n -> in_u32 n ->
  let dx : float := d_div d_one (d_of_u64 n) in
  exists c1 cN,
    compute_with sched1 n 1 = Some c1 /\
    compute_with schedN n n = Some cN /\
    c_partial_sums cN = (fun i => integrand i dx) <$> seqZ 0 n /\
    c_pi_approx cN = c_pi_approx c1 /\
    c_pi_approx c1 = (range_sum 0 n dx * dx)%float.
Proof.
  intros Hf1 HfN Hn Hn32 dx.
  assert (in_u64 n) as Hn64
    by (unfold in_u32, in_u64, modulus32, modulus64 in *; lia).
  assert (thread_sum <$> (range_thread n n dx <$> seqZ 0 n)
          = (fun i => integrand i dx) <$> seqZ 0 n) as HsumsN.
  { rewrite <- list_fmap_compose. apply list_fmap_ext.
    intros k t Ht%lookup_seqZ. unfold compose, thread_sum, range_thread.
    cbn [th_start_idx th_end_idx th_dx]. unfold range_start, range_len.
    rewrite Z.div_same, Z.mod_same by lia.
    replace (t * 1 + Z.min t 0) with t by lia.
    replace (t <? 0) with false by lia.
    unfold range_sum. replace (t + (1 + 0) - t) with 1 by lia.
    assert (seqZ t 1 = [t]) as -> by (unfold seqZ; cbn; f_equal; lia).
    cbn [fold_left]. apply float_zero_add.
    destruct (binary64_terms n t Hn Hn64 ltac:(lia)) as (_ & _ & Hq).
    by eapply pos_finite_signed. }
  assert (thread_sum <$> (range_thread n 1 dx <$> seqZ 0 1)
          = [range_sum 0 n dx]) as Hsums1.
  { change (seqZ 0 1) with [0]. cbn [fmap list_fmap].
    unfold thread_sum, range_thread.
    cbn [th_start_idx th_end_idx th_dx]. unfold range_start, range_len.
    rewrite Z.div_1_r, Z.mod_1_r. do 2 f_equal. cbn. lia. }
  eexists _, _. split; [apply compute_with_spec; (done || lia)|].
  split; [apply compute_with_spec; (done || lia)|].
  cbn [c_partial_sums c_pi_approx]. fold dx.
  rewrite HsumsN, Hsums1. split; [done|].
  cbn [d_mul d_add d_zero Binary64 fold_left].
  rewrite fold_left_fmap_add.
  rewrite float_zero_add
    by (eapply at_least_signed, range_sum_at_least; (done || lia)).
  split; [|done]. f_equal. unfold range_sum. by rewrite Z.sub_0_r.
Qed.

Lemma one_rectangle_per_worker_matches_single_worker_witness :
  exists c1 c8,
    compute (F:=float) 8 1 = Some c1 /\
    compute_with (F:=float) reverse 8 8 = Some c8 /\
    c_pi_approx c8 = c_pi_approx c1.
Proof.
  destruct (one_rectangle_per_worker_matches_single_worker id reverse 8)
    as (c1 & c8 & H1 & H8 & _ & Heq & _).
  - intros threads. reflexivity.
  - intros threads. apply reverse_Permutation.
  - lia.
  - unfold in_u32, modulus32. lia.
  - exists c1, c8. split; [exact H1|]. split; [exact H8|exact Heq].
Defined.
